(** * The authenticated HTTP client of tmarks (tmarks/src/lib/api-client.ts)

    A shallow embedding of [api-client.ts] and the properties of its
    refresh coordinator ([handle401Error], [onRefreshed],
    [subscribeToRefresh]) and of its request orchestrator ([makeRequest],
    [request], [post], [put], [patch]).

    Conventions of the embedding.
    - A JavaScript string is a [string]: a sequence of code units below 256.
    - Values that flow through the client are [value]s: [undefined] or a
      JSON value.  Numbers are integers here; the client tests a number
      for truthiness, 0 being the one falsy integer, and turns it into
      text when it is the message of an error.
    - What the runtime fixes and the file does not ([JSON.stringify], the
      text of a number, the text of engine-raised [TypeError]s) is gathered
      in a [Platform] record over which the development is parameterised.
    - [request] is an [async] function: a tree of calls to the outside
      world (auth store, transport, parser, coordinator) whose answers the
      environment chooses.  Properties of [request] are stated over all its
      runs, that is over all answers.
    - [isRefreshing] and [refreshSubscribers] are module-level state shared
      by all requests: an explicit state on which the pieces of code
      between two suspension points act atomically.
    - Calls to [logger] have no effect on the client and are left out. *)

From Stdlib Require Import ZArith Ascii String List Bool Lia DecimalString.
From stdpp Require Import base list strings.
Import ListNotations.

Local Open Scope string_scope.
Local Open Scope Z_scope.
Local Open Scope list_scope.

#[local] Set Warnings "-register-all".

(** ** JavaScript values *)

Inductive json : Type :=
| JNull
| JBool (b : bool)
| JNum (n : Z)
| JStr (s : string)
| JArr (items : list json)
| JObj (fields : list (string * json)).

Inductive value : Type :=
| undefined
| JV (j : json).

(** ToBoolean. *)
Definition truthy (v : value) : bool :=
  match v with
  | undefined => false
  | JV JNull => false
  | JV (JBool b) => b
  | JV (JNum n) => negb (n =? 0)
  | JV (JStr s) => negb (String.eqb s "")
  | JV (JArr _) => true
  | JV (JObj _) => true
  end.

Definition truthy_string (s : string) : bool := negb (String.eqb s "").

(** [a || b] *)
Definition js_or (a b : value) : value := if truthy a then a else b.

(** Thrown values.  [JsError] is an instance of [Error] that is not an
    [ApiError] (a plain [Error], a [TypeError], a [SyntaxError]); it carries
    no [code] and no [status].  [ApiError] records the arguments its
    constructor was called with (lines 7-16): [code] and [status] are the
    fields of those names, and the [message] the caller reads is the text
    [super(message)] made of the second, [error_message] below.  [Thrown]
    is a thrown value that is not an [Error]. *)
Inductive exn : Type :=
| JsError (message : string)
| ApiError (code : value) (message : value) (status : Z)
| Thrown (v : value).

Definition instanceof_ApiError (e : exn) : bool :=
  match e with ApiError _ _ _ => true | _ => false end.

Definition error_code (e : exn) : option value :=
  match e with ApiError c _ _ => Some c | _ => None end.

Definition error_status (e : exn) : option Z :=
  match e with ApiError _ _ s => Some s | _ => None end.

Record Platform : Type := {
  (** [JSON.stringify v] for a JSON value. *)
  JSON_stringify : json -> string;
  (** [String(n)] for a number. *)
  Number_toString : Z -> string;
  (** Message of the [TypeError] raised on reading a property of [null]. *)
  null_read_message : string;
  (** Message of the [TypeError] raised by [Headers] on an invalid header
      name or value. *)
  invalid_header_message : string
}.

(** Looking up an own data property of an object literal / parsed object. *)
Fixpoint obj_get {A : Type} (o : list (string * A)) (k : string) : option A :=
  match o with
  | [] => None
  | (k', v) :: o' => if String.eqb k' k then Some v else obj_get o' k
  end.

(** [o[k] = v] on an object: an existing key keeps its position. *)
Fixpoint obj_set {A : Type} (o : list (string * A)) (k : string) (v : A)
  : list (string * A) :=
  match o with
  | [] => [(k, v)]
  | (k', v') :: o' =>
      if String.eqb k' k then (k', v) :: o' else (k', v') :: obj_set o' k v
  end.

(** [{ ...o, ...src }] *)
Definition obj_spread {A : Type} (o src : list (string * A)) : list (string * A) :=
  fold_left (fun acc kv => obj_set acc (fst kv) (snd kv)) src o.

(** ** The [Headers] class of the Fetch standard

    A header list holds (lower-cased name, normalised value) pairs; names
    match case-insensitively, values are stripped of leading and trailing
    HTTP whitespace, and an invalid name or value raises a [TypeError]. *)

Definition char_code (c : ascii) : N := N_of_ascii c.

Definition lower_ascii (c : ascii) : ascii :=
  if ((65 <=? char_code c) && (char_code c <=? 90))%N then ascii_of_N (char_code c + 32) else c.

Fixpoint lower (s : string) : string :=
  match s with
  | EmptyString => EmptyString
  | String c s' => String (lower_ascii c) (lower s')
  end.

Fixpoint strip_leading (ws : ascii -> bool) (s : string) : string :=
  match s with
  | EmptyString => EmptyString
  | String c s' => if ws c then strip_leading ws s' else s
  end.

Fixpoint strip_trailing (ws : ascii -> bool) (s : string) : string :=
  match s with
  | EmptyString => EmptyString
  | String c s' =>
      let r := strip_trailing ws s' in
      if ws c && String.eqb r "" then EmptyString else String c r
  end.

Definition strip (ws : ascii -> bool) (s : string) : string :=
  strip_trailing ws (strip_leading ws s).

Definition http_whitespace (c : ascii) : bool :=
  ((char_code c =? 9) || (char_code c =? 10) || (char_code c =? 13) || (char_code c =? 32))%N.

(** White space and line terminators of ECMAScript, below 256. *)
Definition js_whitespace (c : ascii) : bool :=
  (((9 <=? char_code c) && (char_code c <=? 13)) || (char_code c =? 32) || (char_code c =? 160))%N.

(** [String.prototype.trim] *)
Definition trim (s : string) : string := strip js_whitespace s.

Definition normalize (v : string) : string := strip http_whitespace v.

Fixpoint string_forall (p : ascii -> bool) (s : string) : bool :=
  match s with
  | EmptyString => true
  | String c s' => p c && string_forall p s'
  end.

Definition tchar (c : ascii) : bool :=
  let n := char_code c in
  (((48 <=? n) && (n <=? 57)) || ((65 <=? n) && (n <=? 90))
   || ((97 <=? n) && (n <=? 122))
   || (n =? 33) || ((35 <=? n) && (n <=? 39)) || (n =? 42) || (n =? 43)
   || (n =? 45) || (n =? 46) || (n =? 94) || (n =? 95) || (n =? 96)
   || (n =? 124) || (n =? 126))%N.

Definition valid_name (name : string) : bool :=
  truthy_string name && string_forall tchar name.

Definition valid_value (v : string) : bool :=
  string_forall
    (fun c => negb ((char_code c =? 0) || (char_code c =? 10) || (char_code c =? 13))%N) v.

Definition Headers : Type := list (string * string).

Definition name_is (name : string) (kv : string * string) : bool :=
  String.eqb (fst kv) (lower name).

(** [headers.get(name)]: the values under [name], joined by ", ". *)
Definition Headers_get (h : Headers) (name : string) : option string :=
  match List.filter (name_is name) h with
  | [] => None
  | kv :: rest =>
      Some (fold_left (fun acc kv' => acc +:+ ", " +:+ snd kv') rest (snd kv))
  end.

Definition Headers_append (h : Headers) (name v : string) : option Headers :=
  let v' := normalize v in
  if valid_name name && valid_value v' then Some (h ++ [(lower name, v')])
  else None.

(** The first header called [name] takes the value, the others go. *)
Fixpoint replace_first (h : Headers) (name v : string) : Headers :=
  match h with
  | [] => []
  | kv :: h' =>
      if name_is name kv
      then (fst kv, v) :: List.filter (fun kv' => negb (name_is name kv')) h'
      else kv :: replace_first h' name v
  end.

Definition Headers_set (h : Headers) (name v : string) : option Headers :=
  let v' := normalize v in
  if valid_name name && valid_value v' then
    Some (if existsb (name_is name) h then replace_first h name v'
          else h ++ [(lower name, v')])
  else None.

(** [new Headers(record)]: every own property is appended in order. *)
Definition Headers_new (record : list (string * string)) : option Headers :=
  fold_left
    (fun acc kv =>
       match acc with
       | Some h => Headers_append h (fst kv) (snd kv)
       | None => None
       end)
    record (Some []).

(** ** [RequestInit] and [makeRequest] (lines 51-65)

    [headers] is a [HeadersInit]: a plain object from names to values, an
    array of arrays of strings, or a [Headers] object.  The other fields of
    [RequestInit] pass through [fetch] untouched. *)

Inductive HeadersInit : Type :=
| HRecord (fields : list (string * string))
| HPairs (pairs : list (list string))
| HInstance (h : Headers).

Record RequestInit : Type := {
  method : option string;
  headers : option HeadersInit;
  body : option string
}.

(** The own enumerable properties of an array, as [new Headers] reads
    them: the indices, each with its element turned into a string (an array
    of strings joins them with commas). *)
Fixpoint index_properties (i : nat) (pairs : list (list string))
  : list (string * string) :=
  match pairs with
  | [] => []
  | p :: rest =>
      (NilEmpty.string_of_uint (Nat.to_uint i), String.concat "," p)
        :: index_properties (S i) rest
  end.

(** What [...h] copies: the own enumerable properties of [h].  A [Headers]
    object keeps its headers in an internal list and has none. *)
Definition spread_properties (h : HeadersInit) : list (string * string) :=
  match h with
  | HRecord fields => fields
  | HPairs pairs => index_properties 0 pairs
  | HInstance _ => []
  end.

Definition no_options : RequestInit :=
  {| method := None; headers := None; body := None |}.

(** What [fetch] is called with. *)
Record FetchCall : Type := {
  f_url : string;
  f_method : option string;
  f_headers : Headers;
  f_body : option string
}.

(** The properties spread from
    [options.headers && typeof options.headers === 'object'
     ? options.headers : {}]; each form of [HeadersInit] is an object. *)
Definition caller_headers (options : RequestInit) : list (string * string) :=
  match headers options with Some h => spread_properties h | None => [] end.

(** The object literal handed to [new Headers] (lines 52-55), its
    properties in the order they were written.  (An object enumerates its
    integer-like keys first; that changes only the order between headers
    of different names, which no lookup sees.) *)
Definition header_record (options : RequestInit) : list (string * string) :=
  obj_spread [("Content-Type", "application/json")] (caller_headers options).

(** Lines 52-59: the merged header set, or the [TypeError] of [Headers]. *)
Definition merged_headers (options : RequestInit) (authToken : string)
  : option Headers :=
  match Headers_new (header_record options) with
  | None => None
  | Some h =>
      if truthy_string authToken
         && negb (match Headers_get h "Authorization" with
                  | Some v => truthy_string v
                  | None => false
                  end)
      then Headers_set h "Authorization" ("Bearer " +:+ authToken)
      else Some h
  end.

(** ** Asynchronous code as a tree of calls

    [request] talks to four collaborators: the auth store
    ([getAuthToken]), the transport ([fetch], and [text] on a response it
    returned), the JSON parser and the refresh coordinator
    ([handle401Error], whose body is embedded further down on the shared
    state it mutates).  An operation that can throw or reject answers in
    [exn + _]. *)

Record Response : Type := {
  r_id : nat;
  status : Z
}.

(** [response.ok] *)
Definition ok (r : Response) : bool := (200 <=? status r) && (status r <=? 299).

Inductive Op : Type -> Type :=
| getAuthToken : Op (exn + option string)
| fetch (c : FetchCall) : Op (exn + Response)
| handle401Error : Op (exn + string)
| text (r : Response) : Op (exn + string)
| JSON_parse (t : string) : Op (string + json).

Inductive Prog (A : Type) : Type :=
| Ret (a : A)
| Vis {X : Type} (o : Op X) (k : X -> Prog A).

Arguments Ret {A} a.
Arguments Vis {A X} o k.

Fixpoint bind {A B : Type} (p : Prog A) (f : A -> Prog B) : Prog B :=
  match p with
  | Ret a => f a
  | Vis o k => Vis o (fun x => bind (k x) f)
  end.

(** Computations that may throw. *)
Definition M (A : Type) : Type := Prog (exn + A).

Definition ret {A : Type} (a : A) : M A := Ret (inr a).
Definition throw {A : Type} (e : exn) : M A := Ret (inl e).
Definition await {X : Type} (o : Op (exn + X)) : M X := Vis o Ret.

Definition bindM {A B : Type} (p : M A) (f : A -> M B) : M B :=
  bind p (fun r => match r with inl e => Ret (inl e) | inr a => f a end).

Definition try_catch {A : Type} (p : M A) (handler : exn -> M A) : M A :=
  bind p (fun r => match r with inl e => handler e | inr a => Ret (inr a) end).

Notation "x <~ p ;; k" := (bindM p (fun x => k))
  (at level 100, p at next level, right associativity).

(** One answered call. *)
Inductive Event : Type :=
| EStoreThrew (e : exn)
| EGetAuthToken (a : option string)
| EFetch (c : FetchCall) (a : exn + Response)
| EHandle401 (a : exn + string)
| EText (r : Response) (a : exn + string)
| EParse (t : string) (a : string + json).

Definition event_of {X : Type} (o : Op X) : X -> Event :=
  match o in Op X return X -> Event with
  | getAuthToken =>
      fun a => match a with inl e => EStoreThrew e | inr t => EGetAuthToken t end
  | fetch c => EFetch c
  | handle401Error => EHandle401
  | text r => EText r
  | JSON_parse t => EParse t
  end.

(** [reaches p log a]: answering the calls of [p] as [log] records, [p]
    finishes with [a]. *)
Fixpoint reaches {A : Type} (p : Prog A) (log : list Event) (a : A) : Prop :=
  match p with
  | Ret a' => log = [] /\ a = a'
  | Vis o k => exists x log', log = event_of o x :: log' /\ reaches (k x) log' a
  end.

(** An environment answers every call, threading its own state. *)
Definition Env (W : Type) : Type := forall X : Type, Op X -> W -> X * W.

Fixpoint run {A W : Type} (env : Env W) (p : Prog A) (w : W)
  : A * list Event * W :=
  match p with
  | Ret a => (a, [], w)
  | Vis o k =>
      let '(x, w1) := env _ o w in
      let '(a, log, w2) := run env (k x) w1 in
      (a, event_of o x :: log, w2)
  end.

(** ** [request] (lines 44-176) *)

Inductive ApiResponse : Type :=
| DataUndefined            (** [{ data: undefined }] *)
| Payload (data : json).   (** the parsed body *)

Definition str (s : string) : value := JV (JStr s).

(** [{ code: 'UNAUTHORIZED', message: 'Unauthorized' }] *)
Definition unauthorized : json :=
  JObj [("code", JStr "UNAUTHORIZED"); ("message", JStr "Unauthorized")].

(** [{ code: 'UNKNOWN_ERROR', message: 'An error occurred' }] *)
Definition unknown_error : json :=
  JObj [("code", JStr "UNKNOWN_ERROR"); ("message", JStr "An error occurred")].

(** [error instanceof Error ? error.message : fallback], asked of errors
    that are not [ApiError]s. *)
Definition message_or (e : exn) (fallback : string) : string :=
  match e with
  | JsError m => m
  | ApiError _ m _ => match m with JV (JStr s) => s | _ => "" end
  | Thrown _ => fallback
  end.

Section Client.

Variable P : Platform.
Variable baseURL : string.

(** [v.name]: reading a property of [null] or [undefined] throws; a parsed
    object answers with its own property; no other JSON value has a
    property called [error], [code] or [message]. *)
Definition get_prop (v : value) (name : string) : exn + value :=
  match v with
  | undefined => inl (JsError (null_read_message P))
  | JV JNull => inl (JsError (null_read_message P))
  | JV (JObj fields) =>
      inr (match obj_get fields name with Some j => JV j | None => undefined end)
  | JV _ => inr undefined
  end.




Definition fetch_call (url : string) (options : RequestInit) (h : Headers)
  : FetchCall :=
  {| f_url := url; f_method := method options; f_headers := h;
     f_body := body options |}.

(** Lines 51-65: [fetch(url, { ...options, headers })]. *)
Definition makeRequest (url : string) (options : RequestInit)
  (authToken : string) : M Response :=
  match merged_headers options authToken with
  | None => throw (JsError (invalid_header_message P))
  | Some h => await (fetch (fetch_call url options h))
  end.

(** Lines 124-125 and 159-160: what
    [const error = data.error || fallback;
     throw new ApiError(error.code, error.message, status)]
    throws, the [TypeError] of a property read included. *)
Definition thrown_api_error (data fallback : json) (st : Z) : exn :=
  match get_prop (JV data) "error" with
  | inl type_error => type_error
  | inr error =>
      let apiError := js_or error (JV fallback) in
      match get_prop apiError "code" with
      | inl type_error => type_error
      | inr c =>
          match get_prop apiError "message" with
          | inl type_error => type_error
          | inr m => ApiError c m st
          end
      end
  end.

(** Lines 115-126: the handler run when the refresh (or the retry) failed. *)
Definition refresh_failed {A : Type} (response : Response) : M A :=
  data <~ try_catch
            (t <~ await (text response) ;;
             if truthy_string t
             then Vis (JSON_parse t)
                    (fun r => match r with
                              | inl m => throw (JsError m)
                              | inr j => ret j
                              end)
             else ret (JObj [("error", unauthorized)]))
            (fun _ => ret (JObj [("error", unauthorized)])) ;;
  throw (thrown_api_error data unauthorized (status response)).

(** [!text || text.trim() === ''] *)
Definition is_blank (t : string) : bool :=
  negb (truthy_string t) || String.eqb (trim t) "".

(** Lines 129-163: what becomes of the response that is finally kept.
    The [try] block either leaves the function with the empty result
    ([inl]) or goes on with the parsed data ([inr]). *)
Definition classify (response : Response) : M ApiResponse :=
  if status response =? 204 then ret DataUndefined
  else
    r <~ try_catch
           (t <~ await (text response) ;;
            if is_blank t
            then
              if negb (ok response)
              then throw (ApiError (str "EMPTY_RESPONSE")
                            (str "Server returned empty response")
                            (status response))
              else ret (inl DataUndefined)
            else Vis (JSON_parse t)
                   (fun r => match r with
                             | inl m => throw (JsError m)
                             | inr j => ret (inr j)
                             end))
           (fun parseError =>
              if instanceof_ApiError parseError then throw parseError
              else throw (ApiError (str "INVALID_RESPONSE")
                            (str ("Failed to parse server response: "
                                  +:+ message_or parseError "Invalid JSON"))
                            (status response))) ;;
    match r with
    | inl early => ret early
    | inr data =>
        if negb (ok response)
        then throw (thrown_api_error data unknown_error (status response))
        else ret (Payload data)
    end.

(** Lines 164-175. *)
Definition network_error {A : Type} (error : exn) : M A :=
  if instanceof_ApiError error then throw error
  else throw (ApiError (str "NETWORK_ERROR")
                (str (message_or error "Network request failed")) 0).

(** Lines 44-176.  The token is read (line 49) before the [try] of line 104
    is entered: what that read throws is not caught. *)

(** [token || ''] *)
Definition token_or_empty (token : option string) : string :=
  match token with Some t => t | None => "" end.

Definition request (endpoint : string) (options : RequestInit) : M ApiResponse :=
  let url := baseURL +:+ endpoint in
  Vis getAuthToken (fun read =>
  match read with
  | inl e => throw e
  | inr token =>
  try_catch
    (response <~ makeRequest url options (token_or_empty token) ;;
     response <~ (if status response =? 401
                  then
                    try_catch
                      (newToken <~ await handle401Error ;;
                       if truthy_string newToken
                       then makeRequest url options newToken
                       else ret response)
                      (fun _ => refresh_failed response)
                  else ret response) ;;
     classify response)
    network_error
  end).

(** Lines 188-218. *)
Definition with_method (options : RequestInit) (m : string) : RequestInit :=
  {| method := Some m; headers := headers options; body := body options |}.

Definition with_body (options : RequestInit) (m : string) (b : value)
  : RequestInit :=
  {| method := Some m; headers := headers options;
     body := if truthy b
             then match b with
                  | JV j => Some (JSON_stringify P j)
                  | undefined => None
                  end
             else None |}.

Definition get (endpoint : string) (options : RequestInit) : M ApiResponse :=
  request endpoint (with_method options "GET").

Definition post (endpoint : string) (b : value) (options : RequestInit)
  : M ApiResponse :=
  request endpoint (with_body options "POST" b).

Definition put (endpoint : string) (b : value) (options : RequestInit)
  : M ApiResponse :=
  request endpoint (with_body options "PUT" b).

Definition patch (endpoint : string) (b : value) (options : RequestInit)
  : M ApiResponse :=
  request endpoint (with_body options "PATCH" b).

Definition delete (endpoint : string) (options : RequestInit) : M ApiResponse :=
  request endpoint (with_method options "DELETE").

End Client.

(** ** A scripted environment

    The answers are fixed in advance: the token in the store, the successive
    answers of the transport, the outcome of the coordinator, the text of
    each response and the parser. *)

Record World : Type := {
  w_store : exn + option string;
  w_fetch : list (exn + Response);
  w_refresh : exn + string;
  w_text : nat -> exn + string;
  w_parse : string -> string + json
}.

Definition scripted : Env World :=
  fun X o =>
    match o in Op X return World -> X * World with
    | getAuthToken => fun w => (w_store w, w)
    | fetch _ => fun w =>
        match w_fetch w with
        | [] => (inl (JsError "Failed to fetch"), w)
        | a :: rest =>
            (a, {| w_store := w_store w; w_fetch := rest;
                   w_refresh := w_refresh w; w_text := w_text w;
                   w_parse := w_parse w |})
        end
    | handle401Error => fun w => (w_refresh w, w)
    | text r => fun w => (w_text w (r_id r), w)
    | JSON_parse t => fun w => (w_parse w t, w)
    end.

(** A small platform and a parser that knows four bodies, for the
    examples. *)
Definition quoted (s : string) : string :=
  String "034" (s +:+ String "034" "").

Definition demo_platform : Platform :=
  {| JSON_stringify := fun j =>
       match j with
       | JNull => "null"
       | JBool true => "true"
       | JBool false => "false"
       | JStr s => quoted s
       | JArr [] => "[]"
       | _ => "{}"
       end;
     Number_toString := fun n =>
       if n <? 0 then String "-" (NilEmpty.string_of_uint (N.to_uint (Z.to_N (- n))))
       else NilEmpty.string_of_uint (N.to_uint (Z.to_N n));
     null_read_message := "Cannot read properties of null (reading 'error')";
     invalid_header_message := "Invalid name" |}.

(** [{"data":[]}], [{"data":{"id":1}}] and
    [{"error":{"code":"SERVER_ERROR","message":"boom"}}] *)
Definition body_items : string := "{" +:+ quoted "data" +:+ ":[]}".

Definition body_id : string :=
  "{" +:+ quoted "data" +:+ ":{" +:+ quoted "id" +:+ ":1}}".

Definition body_boom : string :=
  "{" +:+ quoted "error" +:+ ":{" +:+ quoted "code" +:+ ":"
  +:+ quoted "SERVER_ERROR" +:+ "," +:+ quoted "message" +:+ ":"
  +:+ quoted "boom" +:+ "}}".

Definition demo_parse (t : string) : string + json :=
  if String.eqb t "null" then inr JNull
  else if String.eqb t body_items then inr (JObj [("data", JArr [])])
  else if String.eqb t body_id then inr (JObj [("data", JObj [("id", JNum 1)])])
  else if String.eqb t body_boom then
    inr (JObj [("error", JObj [("code", JStr "SERVER_ERROR");
                               ("message", JStr "boom")])])
  else inl "Unexpected token".

Definition demo_world (token : option string) (answers : list (exn + Response))
  (refresh : exn + string) (bodies : nat -> exn + string) : World :=
  {| w_store := inr token; w_fetch := answers; w_refresh := refresh;
     w_text := bodies; w_parse := demo_parse |}.

Definition result_of {A W : Type} (r : A * list Event * W) : A := fst (fst r).
Definition log_of {A W : Type} (r : A * list Event * W) : list Event :=
  snd (fst r).

(** ** The refresh coordinator (lines 18-28 and 67-102)

    [isRefreshing] and [refreshSubscribers] are module-level and shared by
    all requests.  JavaScript runs each piece of code between two
    suspension points to completion, so the coordinator is a machine
    whose steps are those pieces: a caller entering [handle401Error], the
    refresher resuming when [refreshAccessToken()] settles, a timer firing;
    between them time passes and the page may move to another path.
    A subscriber callback is the index of the waiter (promise and timer)
    its closure captured. *)

Inductive PromiseState : Type :=
| Pending
| Fulfilled (token : string)
| Rejected (e : exn).

Record Waiter : Type := {
  promise : PromiseState;
  (** the armed [setTimeout] and its deadline; [None] once fired or cleared *)
  timer : option Z;
  (** when the waiter was registered, and for which caller *)
  since : Z;
  owner : nat
}.

Record Coordinator : Type := {
  isRefreshing : bool;
  refreshSubscribers : list nat;
  (** the promises and timers created by waiting callers *)
  waiters : list Waiter;
  (** callers whose [refreshAccessToken()] call has not settled yet *)
  executing : list nat;
  (** calls of [refreshAccessToken()] made so far *)
  refreshCalls : nat;
  (** calls of [clearAuth()] and assignments of [location.href] so far *)
  clearAuthCalls : nat;
  redirects : nat;
  (** [window.location.pathname.includes('/login')], as of now *)
  onLoginPage : bool;
  (** what each refreshing call of [handle401Error] returned or threw *)
  returned : list (nat * (exn + string));
  (** the clock, in milliseconds *)
  now : Z
}.

(** The module as loaded, on the login page or elsewhere. *)
Definition boot (login : bool) : Coordinator :=
  {| isRefreshing := false; refreshSubscribers := []; waiters := [];
     executing := []; refreshCalls := 0; clearAuthCalls := 0; redirects := 0;
     onLoginPage := login; returned := []; now := 0 |}.

Definition init : Coordinator := boot false.

Definition set_isRefreshing (b : bool) (s : Coordinator) : Coordinator :=
  {| isRefreshing := b; refreshSubscribers := refreshSubscribers s;
     waiters := waiters s; executing := executing s;
     refreshCalls := refreshCalls s; clearAuthCalls := clearAuthCalls s;
     redirects := redirects s; onLoginPage := onLoginPage s;
     returned := returned s; now := now s |}.

Definition set_refreshSubscribers (l : list nat) (s : Coordinator) : Coordinator :=
  {| isRefreshing := isRefreshing s; refreshSubscribers := l;
     waiters := waiters s; executing := executing s;
     refreshCalls := refreshCalls s; clearAuthCalls := clearAuthCalls s;
     redirects := redirects s; onLoginPage := onLoginPage s;
     returned := returned s; now := now s |}.

Definition set_waiters (ws : list Waiter) (s : Coordinator) : Coordinator :=
  {| isRefreshing := isRefreshing s; refreshSubscribers := refreshSubscribers s;
     waiters := ws; executing := executing s;
     refreshCalls := refreshCalls s; clearAuthCalls := clearAuthCalls s;
     redirects := redirects s; onLoginPage := onLoginPage s;
     returned := returned s; now := now s |}.

Definition set_executing (l : list nat) (s : Coordinator) : Coordinator :=
  {| isRefreshing := isRefreshing s; refreshSubscribers := refreshSubscribers s;
     waiters := waiters s; executing := l;
     refreshCalls := refreshCalls s; clearAuthCalls := clearAuthCalls s;
     redirects := redirects s; onLoginPage := onLoginPage s;
     returned := returned s; now := now s |}.

Definition set_onLoginPage (b : bool) (s : Coordinator) : Coordinator :=
  {| isRefreshing := isRefreshing s; refreshSubscribers := refreshSubscribers s;
     waiters := waiters s; executing := executing s;
     refreshCalls := refreshCalls s; clearAuthCalls := clearAuthCalls s;
     redirects := redirects s; onLoginPage := b;
     returned := returned s; now := now s |}.

Definition set_now (t : Z) (s : Coordinator) : Coordinator :=
  {| isRefreshing := isRefreshing s; refreshSubscribers := refreshSubscribers s;
     waiters := waiters s; executing := executing s;
     refreshCalls := refreshCalls s; clearAuthCalls := clearAuthCalls s;
     redirects := redirects s; onLoginPage := onLoginPage s;
     returned := returned s; now := t |}.

(** [authStore.refreshAccessToken()] is called. *)
Definition call_refresh (c : nat) (s : Coordinator) : Coordinator :=
  {| isRefreshing := isRefreshing s; refreshSubscribers := refreshSubscribers s;
     waiters := waiters s; executing := executing s ++ [c];
     refreshCalls := S (refreshCalls s); clearAuthCalls := clearAuthCalls s;
     redirects := redirects s; onLoginPage := onLoginPage s;
     returned := returned s; now := now s |}.

(** The refreshing call of caller [c] returns or throws [r]. *)
Definition finish (c : nat) (r : exn + string) (s : Coordinator) : Coordinator :=
  {| isRefreshing := isRefreshing s; refreshSubscribers := refreshSubscribers s;
     waiters := waiters s; executing := executing s;
     refreshCalls := refreshCalls s; clearAuthCalls := clearAuthCalls s;
     redirects := redirects s; onLoginPage := onLoginPage s;
     returned := returned s ++ [(c, r)]; now := now s |}.

(** Lines 178-186. *)
Definition clearAuthAndRedirect (s : Coordinator) : Coordinator :=
  {| isRefreshing := isRefreshing s; refreshSubscribers := refreshSubscribers s;
     waiters := waiters s; executing := executing s;
     refreshCalls := refreshCalls s; clearAuthCalls := S (clearAuthCalls s);
     redirects := if onLoginPage s then redirects s else S (redirects s);
     onLoginPage := onLoginPage s;
     returned := returned s; now := now s |}.

(** [resolve] and [reject] of a promise that is already settled do nothing. *)
Definition settle (st : PromiseState) (w : Waiter) : Waiter :=
  {| promise := match promise w with Pending => st | p => p end;
     timer := timer w; since := since w; owner := owner w |}.

Definition clearTimeout (w : Waiter) : Waiter :=
  {| promise := promise w; timer := None; since := since w; owner := owner w |}.

(** Lines 21-23. *)
Definition subscribeToRefresh (callback : nat) (s : Coordinator) : Coordinator :=
  set_refreshSubscribers (refreshSubscribers s ++ [callback]) s.

(** Lines 96-99: the callback of waiter [w], called with [token]. *)
Definition callback (token : string) (ws : list Waiter) (w : nat) : list Waiter :=
  alter (fun x => settle (Fulfilled token) (clearTimeout x)) w ws.

(** Lines 25-28. *)
Definition onRefreshed (token : string) (s : Coordinator) : Coordinator :=
  set_refreshSubscribers []
    (set_waiters (fold_left (callback token) (refreshSubscribers s) (waiters s)) s).

(** Lines 92-94: the timer of waiter [w] fires, once. *)
Definition timeout_fires (w : nat) (s : Coordinator) : Coordinator :=
  set_waiters
    (alter (fun x => settle (Rejected (JsError "Token refresh timeout"))
                       (clearTimeout x)) w (waiters s)) s.

(** [handle401Error()] up to its first suspension (lines 68-72, 91-100). *)
Definition handle401Error_enter (c : nat) (s : Coordinator) : Coordinator :=
  if negb (isRefreshing s) then
    call_refresh c (set_isRefreshing true s)
  else
    let w := length (waiters s) in
    subscribeToRefresh w
      (set_waiters
         (waiters s ++ [{| promise := Pending; timer := Some (now s + 10000);
                           since := now s; owner := c |}]) s).

(** How [await authStore.refreshAccessToken()] ends: fulfilled, with what
    [authStore.accessToken] then reads, or rejected. *)
Inductive RefreshOutcome : Type :=
| RefreshOk (accessToken : option string)
| RefreshFailed (e : exn).

(** The refresher resumes (lines 73-88). *)
Definition handle401Error_resume (c : nat) (r : RefreshOutcome)
  (s : Coordinator) : Coordinator :=
  let failed (error : exn) :=
    set_isRefreshing false (finish c (inl error) (clearAuthAndRedirect s)) in
  match r with
  | RefreshOk newToken =>
      match newToken with
      | Some t =>
          if truthy_string t
          then set_isRefreshing false (finish c (inr t) (onRefreshed t s))
          else failed (JsError "Failed to get new token after refresh")
      | None => failed (JsError "Failed to get new token after refresh")
      end
  | RefreshFailed error => failed error
  end.

Fixpoint remove_first (c : nat) (l : list nat) : list nat :=
  match l with
  | [] => []
  | x :: l' => if Nat.eqb x c then l' else x :: remove_first c l'
  end.

(** What can happen between two pieces of code: a caller enters
    [handle401Error], the pending refresh settles and the refresher resumes,
    a timer fires, time passes, the page moves to another path. *)
Inductive Step : Type :=
| Call (c : nat)
| Settle (c : nat) (r : RefreshOutcome)
| Fire (w : nat)
| Elapse (d : Z)
| Navigate (login : bool).

(** A step that cannot happen in the state leaves it as it is: only a
    pending refresh settles, and only an armed timer fires, no earlier than
    it is due (it may fire late). *)
Definition step (s : Coordinator) (e : Step) : Coordinator :=
  match e with
  | Call c => handle401Error_enter c s
  | Settle c r =>
      if existsb (Nat.eqb c) (executing s)
      then handle401Error_resume c r (set_executing (remove_first c (executing s)) s)
      else s
  | Fire w =>
      match waiters s !! w with
      | Some x =>
          match timer x with
          | Some d => if d <=? now s then timeout_fires w s else s
          | None => s
          end
      | None => s
      end
  | Elapse d => if 0 <=? d then set_now (now s + d) s else s
  | Navigate login => set_onLoginPage login s
  end.

Definition exec (s : Coordinator) (steps : list Step) : Coordinator :=
  fold_left step steps s.

Definition promise_of (s : Coordinator) (w : nat) : option PromiseState :=
  promise <$> waiters s !! w.

Definition is_call (e : Step) : bool :=
  match e with Call _ => true | _ => false end.

Definition is_settle (e : Step) : bool :=
  match e with Settle _ _ => true | _ => false end.

(** Number of callers entering [handle401Error] in a run. *)
Definition calls (steps : list Step) : nat := length (List.filter is_call steps).

Definition no_settle (steps : list Step) : bool :=
  forallb (fun e => negb (is_settle e)) steps.

(** The flag tells exactly whether a refresh is executing. *)
Definition single_flight (s : Coordinator) : Prop :=
  if isRefreshing s then exists c, executing s = [c] else executing s = [].


Definition keeps_settled (f : Waiter -> Waiter) : Prop :=
  forall x, promise x <> Pending -> promise (f x) = promise x.

Definition waiter_ok (t : Z) (x : Waiter) : Prop :=
  since x <= t
  /\ match timer x with
     | Some d => d = since x + 10000
     | None => promise x <> Pending
     end.

Definition timers_ok (s : Coordinator) : Prop :=
  Forall (waiter_ok (now s)) (waiters s).

(** The refresh did not produce a token: the provider rejected, or it
    fulfilled and the token read afterwards is absent or empty. *)
Definition refresh_fails (r : RefreshOutcome) : bool :=
  match r with
  | RefreshOk (Some t) => negb (truthy_string t)
  | RefreshOk None => true
  | RefreshFailed _ => true
  end.

Definition refresh_error (r : RefreshOutcome) : exn :=
  match r with
  | RefreshFailed e => e
  | RefreshOk _ => JsError "Failed to get new token after refresh"
  end.

(** The outer [catch] of [request] (lines 164-175) calls nothing: it maps
    the way the [try] block ended to the way [request] ends. *)
Definition outer {A : Type} (r : exn + A) : exn + A :=
  match r with
  | inl e =>
      if instanceof_ApiError e then inl e
      else inl (ApiError (str "NETWORK_ERROR")
                  (str (message_or e "Network request failed")) 0)
  | inr a => inr a
  end.

Definition unauthorized_error (st : Z) : exn :=
  ApiError (str "UNAUTHORIZED") (str "Unauthorized") st.

Definition is_fetch (e : Event) : bool :=
  match e with EFetch _ _ => true | _ => false end.

Definition is_handle401 (e : Event) : bool :=
  match e with EHandle401 _ => true | _ => false end.

(** Calls to the transport and to the coordinator recorded in a log. *)
Definition fetches (log : list Event) : nat := length (List.filter is_fetch log).
Definition refreshes (log : list Event) : nat :=
  length (List.filter is_handle401 log).

(** The calls [fetch] was given in a log. *)
Definition fetch_calls (log : list Event) : list FetchCall :=
  flat_map (fun e => match e with EFetch c _ => [c] | _ => [] end) log.

Definition empty_response_error (st : Z) : exn :=
  ApiError (str "EMPTY_RESPONSE") (str "Server returned empty response") st.

Definition invalid_response_error (detail : string) (st : Z) : exn :=
  ApiError (str "INVALID_RESPONSE")
    (str ("Failed to parse server response: " +:+ detail)) st.

(** [kept log r post]: in the run recorded by [log] the response that goes
    on to lines 129-163 is [r], and [post] is what is called from there on.
    It is the first response when its status is not 401 (or when the
    coordinator returned an empty token), and the response to the retry
    otherwise. *)
Definition kept (log : list Event) (r : Response) (post : list Event) : Prop :=
  (exists t c, log = EGetAuthToken t :: EFetch c (inr r) :: post
               /\ status r <> 401)
  \/ (exists t c newToken,
         log = EGetAuthToken t :: EFetch c (inr r)
                 :: EHandle401 (inr newToken) :: post
         /\ status r = 401 /\ truthy_string newToken = false)
  \/ (exists t c1 a1 a401 c2,
         log = EGetAuthToken t :: EFetch c1 a1 :: EHandle401 a401
                 :: EFetch c2 (inr r) :: post).

Definition json_null_dec (j : json) : {j = JNull} + {j <> JNull}.
Proof. destruct j; [left; reflexivity | right; discriminate ..]. Defined.

(** The value of header [name] in the set sent for [authToken], if any. *)
Definition sent_header (options : RequestInit) (authToken name : string)
  : option string :=
  match merged_headers options authToken with
  | Some h => Headers_get h name
  | None => None
  end.

(** [sent_for log authToken c]: in the run recorded by [log], [c] is the
    call of [fetch] made by [makeRequest(authToken)]: the first call, for
    the token read from the store (line 105), or the second, for the token
    the coordinator returned (line 113). *)
Definition sent_for (log : list Event) (authToken : string) (c : FetchCall)
  : Prop :=
  (exists t a post,
      log = EGetAuthToken t :: EFetch c a :: post
      /\ authToken = token_or_empty t)
  \/ (exists t c1 a1 a2 post,
         log = EGetAuthToken t :: EFetch c1 a1 :: EHandle401 (inr authToken)
                 :: EFetch c a2 :: post).

(** The value a caller's record of headers gives [name], read the way
    [Headers] reads it. *)
Definition caller_header (hs : list (string * string)) (name : string)
  : option string :=
  Headers_get (map (fun kv => (lower (fst kv), normalize (snd kv))) hs) name.

(** ** Worlds of the examples *)

Definition response (id : nat) (st : Z) : Response := {| r_id := id; status := st |}.

Definition with_headers (h : list (string * string)) : RequestInit :=
  {| method := None; headers := Some (HRecord h); body := None |}.

(** A stale token: 401 first, then 200 with [{"data":[]}]. *)
Definition world_items : World :=
  demo_world (Some "stale") [inr (response 0 401); inr (response 1 200)]
    (inr "fresh")
    (fun id => if Nat.eqb id 1 then inr body_items else inr "").

(** The refreshed token is rejected too: 401 twice, empty bodies. *)
Definition world_twice_401 : World :=
  demo_world (Some "stale") [inr (response 0 401); inr (response 1 401)]
    (inr "fresh") (fun _ => inr "").

(** The refreshed token is rejected too, with the body [null]. *)
Definition world_retry_null : World :=
  demo_world (Some "stale") [inr (response 0 401); inr (response 1 401)]
    (inr "fresh") (fun _ => inr "null").

(** 401 with the body [null], and the refresh fails. *)
Definition world_null_body : World :=
  demo_world (Some "stale") [inr (response 0 401)]
    (inl (JsError "refresh rejected")) (fun _ => inr "null").

(** 401 with an empty body, and the refresh fails. *)
Definition world_empty_401 : World :=
  demo_world (Some "stale") [inr (response 0 401)]
    (inl (JsError "refresh rejected")) (fun _ => inr "").



(** Reading the state of the store throws. *)
Definition world_store_throws : World :=
  {| w_store := inl (JsError "store is gone"); w_fetch := [inr (response 0 200)];
     w_refresh := inr "fresh"; w_text := fun _ => inr body_id;
     w_parse := demo_parse |}.

(** 200 with [{"data":{"id":1}}]. *)
Definition world_id : World :=
  demo_world (Some "token") [inr (response 0 200)] (inr "fresh")
    (fun _ => inr body_id).

(** 500 with [{"error":{"code":"SERVER_ERROR","message":"boom"}}]. *)
Definition world_boom : World :=
  demo_world None [inr (response 0 500)] (inr "fresh") (fun _ => inr body_boom).

Section Ways.

Variable P : Platform.
Variable baseURL : string.

(** The two stages of [request] after which nothing more is fetched. *)
Inductive Ending : Type :=
| Kept (r : Response)        (** the response goes on to lines 129-163 *)
| Failed401 (r : Response).  (** the handler of lines 115-126 runs on it *)

Definition ending (e : Ending) : M ApiResponse :=
  match e with
  | Kept r => classify P r
  | Failed401 r => refresh_failed P r
  end.

(** The ways through [request]: its calls up to the last stage, and the
    response the last stage works on. *)
Inductive Way (endpoint : string) (options : RequestInit)
  : list Event -> Ending -> Prop :=
| way_first t h r :
    merged_headers options (token_or_empty t) = Some h ->
    status r <> 401 ->
    Way endpoint options
      [EGetAuthToken t;
       EFetch (fetch_call (baseURL +:+ endpoint) options h) (inr r)]
      (Kept r)
| way_refresh_failed t h r e :
    merged_headers options (token_or_empty t) = Some h ->
    status r = 401 ->
    Way endpoint options
      [EGetAuthToken t;
       EFetch (fetch_call (baseURL +:+ endpoint) options h) (inr r);
       EHandle401 (inl e)]
      (Failed401 r)
| way_no_token t h r newToken :
    merged_headers options (token_or_empty t) = Some h ->
    status r = 401 ->
    truthy_string newToken = false ->
    Way endpoint options
      [EGetAuthToken t;
       EFetch (fetch_call (baseURL +:+ endpoint) options h) (inr r);
       EHandle401 (inr newToken)]
      (Kept r)
| way_retry_headers t h r newToken :
    merged_headers options (token_or_empty t) = Some h ->
    status r = 401 ->
    truthy_string newToken = true ->
    merged_headers options newToken = None ->
    Way endpoint options
      [EGetAuthToken t;
       EFetch (fetch_call (baseURL +:+ endpoint) options h) (inr r);
       EHandle401 (inr newToken)]
      (Failed401 r)
| way_retry_failed t h r newToken h2 e :
    merged_headers options (token_or_empty t) = Some h ->
    status r = 401 ->
    truthy_string newToken = true ->
    merged_headers options newToken = Some h2 ->
    Way endpoint options
      [EGetAuthToken t;
       EFetch (fetch_call (baseURL +:+ endpoint) options h) (inr r);
       EHandle401 (inr newToken);
       EFetch (fetch_call (baseURL +:+ endpoint) options h2) (inl e)]
      (Failed401 r)
| way_retried t h r newToken h2 r2 :
    merged_headers options (token_or_empty t) = Some h ->
    status r = 401 ->
    truthy_string newToken = true ->
    merged_headers options newToken = Some h2 ->
    Way endpoint options
      [EGetAuthToken t;
       EFetch (fetch_call (baseURL +:+ endpoint) options h) (inr r);
       EHandle401 (inr newToken);
       EFetch (fetch_call (baseURL +:+ endpoint) options h2) (inr r2)]
      (Kept r2).

End Ways.

(** ** Invariants of the coordinator *)

Definition is_failure (p : nat * (exn + string)) : bool :=
  match snd p with inl _ => true | inr _ => false end.

(** Refreshing calls of [handle401Error] that threw. *)
Definition failures (s : Coordinator) : nat :=
  length (List.filter is_failure (returned s)).

(** The side effects counted against the refreshing calls that threw. *)
Definition accounts (s : Coordinator) : Prop :=
  clearAuthCalls s = failures s /\ (redirects s <= clearAuthCalls s)%nat.

(** No token handed out is empty. *)
Definition tokens_ok (s : Coordinator) : Prop :=
  Forall (fun p => match snd p with inr t => t <> "" | inl _ => True end)
    (returned s)
  /\ Forall (fun x => match promise x with Fulfilled t => t <> "" | _ => True end)
       (waiters s).

(** The queue holds existing waiters, in the order they registered. *)
Definition queue_ok (s : Coordinator) : Prop :=
  Forall (fun w => (w < length (waiters s))%nat) (refreshSubscribers s)
  /\ forall i j a b,
       refreshSubscribers s !! i = Some a ->
       refreshSubscribers s !! j = Some b ->
       (i < j)%nat -> (a < b)%nat.

(** A waiter that is pending is still queued. *)
Definition pending_queued (s : Coordinator) : Prop :=
  forall w x, waiters s !! w = Some x -> promise x = Pending ->
              In w (refreshSubscribers s).

(** What the callback of a waiter does to it. *)
Definition released (token : string) (x : Waiter) : Waiter :=
  settle (Fulfilled token) (clearTimeout x).

(** The transport is down. *)
Definition world_offline : World :=
  demo_world (Some "token") [inl (JsError "Failed to fetch")] (inr "fresh")
    (fun _ => inr "").


(** 200 with a body that is not JSON. *)
Definition world_garbage : World :=
  demo_world (Some "token") [inr (response 0 200)] (inr "fresh")
    (fun _ => inr "<html>").

(** A call of [fetch] to /api/v1/items. *)
Definition items_call (m : option string) (token : string) : FetchCall :=
  {| f_url := "/api/v1/items"; f_method := m;
     f_headers := [("content-type", "application/json");
                   ("authorization", "Bearer " +:+ token)];
     f_body := None |}.

Definition is_text (e : Event) : bool :=
  match e with EText _ _ => true | _ => false end.

Definition is_parse (e : Event) : bool :=
  match e with EParse _ _ => true | _ => false end.

(** Bodies read and texts parsed in a log. *)
Definition reads (log : list Event) : nat := length (List.filter is_text log).
Definition parses (log : list Event) : nat := length (List.filter is_parse log).
(** * Properties of the coordinator *)

Lemma exec_app s l1 l2 : exec s (l1 ++ l2) = exec (exec s l1) l2.
Proof. apply fold_left_app. Qed.

Lemma exec_cons s e l : exec s (e :: l) = exec (step s e) l.
Proof. reflexivity. Qed.

Lemma step_single_flight s e : single_flight s -> single_flight (step s e).
Proof.
  unfold single_flight. intros Hs. destruct e as [c | c r | w | d | page]; simpl.
  - unfold handle401Error_enter.
    destruct (isRefreshing s) eqn:Hf; simpl; [rewrite Hf; exact Hs |].
    rewrite Hs. exists c. reflexivity.
  - destruct (existsb (Nat.eqb c) (executing s)) eqn:Hin; [| exact Hs].
    destruct (isRefreshing s) eqn:Hf.
    + destruct Hs as [c' Hc']. rewrite Hc' in Hin |- *. simpl in Hin |- *.
      rewrite orb_false_r in Hin. apply Nat.eqb_eq in Hin. subst c'.
      rewrite Nat.eqb_refl.
      destruct r as [[t |] | err]; simpl; try reflexivity.
      destruct (truthy_string t); reflexivity.
    + rewrite Hs in Hin. discriminate.
  - destruct (waiters s !! w) as [x |]; [| exact Hs].
    destruct (timer x) as [d |]; [| exact Hs].
    destruct (d <=? now s); exact Hs.
  - destruct (0 <=? d); exact Hs.
  - exact Hs.
Qed.

Lemma exec_single_flight steps s :
  single_flight s -> single_flight (exec s steps).
Proof.
  revert s. induction steps as [| e steps IH]; intros s Hs; [exact Hs |].
  rewrite exec_cons. apply IH, step_single_flight, Hs.
Qed.

Lemma single_flight_executing s : single_flight s -> (length (executing s) <= 1)%nat.
Proof.
  unfold single_flight. destruct (isRefreshing s).
  - intros [c ->]. simpl. lia.
  - intros ->. simpl. lia.
Qed.

(** A timer firing, time passing or the page moving touches neither the flag, nor the
    queue, nor the count of refresh calls. *)
Lemma step_quiet s e :
  is_call e = false -> is_settle e = false ->
  isRefreshing (step s e) = isRefreshing s
  /\ refreshSubscribers (step s e) = refreshSubscribers s
  /\ refreshCalls (step s e) = refreshCalls s.
Proof.
  destruct e as [c | c r | w | d | page]; simpl; try discriminate; intros _ _.
  - destruct (waiters s !! w) as [x |]; [| auto].
    destruct (timer x) as [d |]; [| auto].
    destruct (d <=? now s); auto.
  - destruct (0 <=? d); auto.
  - auto.
Qed.

(** A caller that finds the flag set subscribes and calls nothing. *)
Lemma enter_while_refreshing s c :
  isRefreshing s = true ->
  isRefreshing (step s (Call c)) = true
  /\ refreshCalls (step s (Call c)) = refreshCalls s
  /\ executing (step s (Call c)) = executing s
  /\ refreshSubscribers (step s (Call c))
     = refreshSubscribers s ++ [length (waiters s)]
  /\ waiters (step s (Call c))
     = waiters s ++ [{| promise := Pending; timer := Some (now s + 10000);
                        since := now s; owner := c |}].
Proof.
  intros Hf. simpl. unfold handle401Error_enter. rewrite Hf. simpl. auto.
Qed.

(** A caller that finds the flag clear sets it and calls the provider. *)
Lemma enter_while_idle s c :
  isRefreshing s = false ->
  isRefreshing (step s (Call c)) = true
  /\ refreshCalls (step s (Call c)) = S (refreshCalls s)
  /\ executing (step s (Call c)) = executing s ++ [c]
  /\ refreshSubscribers (step s (Call c)) = refreshSubscribers s
  /\ waiters (step s (Call c)) = waiters s.
Proof.
  intros Hf. simpl. unfold handle401Error_enter. rewrite Hf. simpl. auto.
Qed.

Lemma burst_while_refreshing steps s :
  no_settle steps = true -> isRefreshing s = true ->
  isRefreshing (exec s steps) = true
  /\ refreshCalls (exec s steps) = refreshCalls s
  /\ length (refreshSubscribers (exec s steps))
     = (length (refreshSubscribers s) + calls steps)%nat.
Proof.
  revert s. induction steps as [| e steps IH]; intros s Hns Hf.
  - simpl. unfold calls. simpl. auto with zarith.
  - simpl in Hns. apply andb_true_iff in Hns as [He Hns].
    apply negb_true_iff in He. rewrite exec_cons.
    destruct (is_call e) eqn:Hc.
    + destruct e as [c | | | |]; try discriminate.
      destruct (enter_while_refreshing s c Hf) as (Hf' & Hr & _ & Hq & _).
      destruct (IH _ Hns Hf') as (IH1 & IH2 & IH3).
      split; [exact IH1 |]. split; [congruence |].
      rewrite IH3, Hq, length_app. unfold calls. simpl. lia.
    + destruct (step_quiet s e Hc He) as (Hf' & Hq & Hr).
      destruct (IH (step s e)) as (IH1 & IH2 & IH3);
        [exact Hns | congruence |].
      split; [exact IH1 |]. split; [congruence |].
      rewrite IH3, Hq. unfold calls. simpl. rewrite Hc. reflexivity.
Qed.

Lemma burst_from_idle steps s :
  no_settle steps = true -> isRefreshing s = false -> (1 <= calls steps)%nat ->
  refreshCalls (exec s steps) = S (refreshCalls s)
  /\ length (refreshSubscribers (exec s steps))
     = (length (refreshSubscribers s) + (calls steps - 1))%nat.
Proof.
  revert s. induction steps as [| e steps IH]; intros s Hns Hf Hn.
  - unfold calls in Hn. simpl in Hn. lia.
  - simpl in Hns. apply andb_true_iff in Hns as [He Hns].
    apply negb_true_iff in He. rewrite exec_cons.
    destruct (is_call e) eqn:Hc.
    + destruct e as [c | | | |]; try discriminate.
      destruct (enter_while_idle s c Hf) as (Hf' & Hr & _ & Hq & _).
      destruct (burst_while_refreshing steps _ Hns Hf') as (_ & B2 & B3).
      split; [congruence |].
      rewrite B3, Hq. unfold calls. simpl. lia.
    + destruct (step_quiet s e Hc He) as (Hf' & Hq & Hr).
      assert (Hn' : (1 <= calls steps)%nat).
      { unfold calls in Hn |- *. simpl in Hn. rewrite Hc in Hn. exact Hn. }
      destruct (IH (step s e)) as (IH1 & IH2); [exact Hns | congruence | exact Hn' |].
      split; [congruence |].
      rewrite IH2, Hq. unfold calls. simpl. rewrite Hc. reflexivity.
Qed.

(** C1. Single-flight refresh.  In every run of the coordinator at most
    one [refreshAccessToken()] call is executing at any time; a caller that
    finds a refresh in flight calls nothing and is appended to the queue as a
    pending waiter; and when N >= 1 callers enter while no refresh settles
    (they are concurrent), starting with no refresh in flight, exactly one
    refresh call is made and the other N - 1 callers are queued. *)
Theorem single_flight_refresh :
  (forall (login : bool) (steps : list Step),
      (length (executing (exec (boot login) steps)) <= 1)%nat)
  /\ (forall (s : Coordinator) (c : nat),
        isRefreshing s = true ->
        refreshCalls (step s (Call c)) = refreshCalls s
        /\ executing (step s (Call c)) = executing s
        /\ refreshSubscribers (step s (Call c))
           = refreshSubscribers s ++ [length (waiters s)]
        /\ promise_of (step s (Call c)) (length (waiters s)) = Some Pending)
  /\ (forall (s : Coordinator) (burst : list Step),
        isRefreshing s = false ->
        no_settle burst = true ->
        (1 <= calls burst)%nat ->
        refreshCalls (exec s burst) = S (refreshCalls s)
        /\ length (refreshSubscribers (exec s burst))
           = (length (refreshSubscribers s) + (calls burst - 1))%nat).
Proof.
  split; [| split].
  - intros login steps. apply single_flight_executing, exec_single_flight.
    reflexivity.
  - intros s c Hf.
    destruct (enter_while_refreshing s c Hf) as (_ & Hr & He & Hq & Hw).
    repeat split; try assumption.
    unfold promise_of. rewrite Hw, list_lookup_middle by reflexivity.
    reflexivity.
  - intros s burst Hf Hns Hn. apply burst_from_idle; assumption.
Qed.

Lemma single_flight_refresh_witness :
  refreshCalls (exec init [Call 0; Call 1; Elapse 5; Call 2; Call 3]%nat) = 1%nat
  /\ length (refreshSubscribers
               (exec init [Call 0; Call 1; Elapse 5; Call 2; Call 3]%nat)) = 3%nat
  /\ refreshSubscribers
       (step (exec init [Call 0; Call 1]%nat) (Call 2%nat)) = [0; 1]%nat.
Proof.
  destruct single_flight_refresh as (_ & Hwait & Hburst).
  split; [| split].
  - apply (Hburst init [Call 0; Call 1; Elapse 5; Call 2; Call 3]%nat);
      [reflexivity | reflexivity | vm_compute; lia].
  - apply (Hburst init [Call 0; Call 1; Elapse 5; Call 2; Call 3]%nat);
      [reflexivity | reflexivity | vm_compute; lia].
  - apply (Hwait (exec init [Call 0; Call 1]%nat) 2%nat). reflexivity.
Defined.

(** ** Promises settle once *)

Lemma settle_keeps st : keeps_settled (fun x => settle st (clearTimeout x)).
Proof.
  intros x Hx. simpl. destruct (promise x); [contradiction | reflexivity ..].
Qed.

Lemma alter_keeps_settled f i (ws : list Waiter) w p :
  keeps_settled f ->
  promise <$> ws !! w = Some p -> p <> Pending ->
  promise <$> alter f i ws !! w = Some p.
Proof.
  intros Hf Hw Hp. destruct (decide (i = w)) as [-> | Hne].
  - rewrite list_lookup_alter_eq.
    destruct (ws !! w) as [x |] eqn:Hx; [| discriminate].
    simpl in Hw |- *. injection Hw as <-. rewrite Hf; [reflexivity | exact Hp].
  - rewrite list_lookup_alter_ne by exact Hne. exact Hw.
Qed.

Lemma callbacks_keep_settled token subs (ws : list Waiter) w p :
  promise <$> ws !! w = Some p -> p <> Pending ->
  promise <$> fold_left (callback token) subs ws !! w = Some p.
Proof.
  revert ws. induction subs as [| i subs IH]; intros ws Hw Hp; [exact Hw |].
  simpl. apply IH; [| exact Hp].
  unfold callback. apply alter_keeps_settled; [apply settle_keeps | exact Hw | exact Hp].
Qed.

Lemma onRefreshed_keeps_settled token s w p :
  promise_of s w = Some p -> p <> Pending ->
  promise_of (onRefreshed token s) w = Some p.
Proof. intros Hw Hp. apply callbacks_keep_settled; assumption. Qed.

Lemma step_keeps_settled s e w p :
  promise_of s w = Some p -> p <> Pending -> promise_of (step s e) w = Some p.
Proof.
  unfold promise_of. intros Hw Hp. destruct e as [c | c r | i | d | page]; simpl.
  - unfold handle401Error_enter. destruct (isRefreshing s); simpl; [| exact Hw].
    destruct (waiters s !! w) as [x |] eqn:Hx; [| discriminate].
    rewrite (lookup_app_l_Some _ _ _ _ Hx). exact Hw.
  - destruct (existsb (Nat.eqb c) (executing s)); [| exact Hw].
    destruct r as [[t |] | err]; simpl; try exact Hw.
    destruct (truthy_string t); simpl; [| exact Hw].
    apply callbacks_keep_settled; assumption.
  - destruct (waiters s !! i) as [x |]; [| exact Hw].
    destruct (timer x) as [d |]; [| exact Hw].
    destruct (d <=? now s); [| exact Hw].
    simpl. apply alter_keeps_settled; [apply settle_keeps | exact Hw | exact Hp].
  - destruct (0 <=? d); exact Hw.
  - exact Hw.
Qed.

Lemma exec_keeps_settled steps s w p :
  promise_of s w = Some p -> p <> Pending -> promise_of (exec s steps) w = Some p.
Proof.
  revert s. induction steps as [| e steps IH]; intros s Hw Hp; [exact Hw |].
  rewrite exec_cons. apply IH; [| exact Hp]. apply step_keeps_settled; assumption.
Qed.

Lemma timeout_rejects s w x d :
  waiters s !! w = Some x -> timer x = Some d -> d <= now s ->
  promise x = Pending ->
  promise_of (step s (Fire w)) w
  = Some (Rejected (JsError "Token refresh timeout"))
  /\ refreshSubscribers (step s (Fire w)) = refreshSubscribers s.
Proof.
  intros Hx Ht Hd Hp. unfold promise_of. simpl. rewrite Hx, Ht.
  apply Z.leb_le in Hd. rewrite Hd. simpl. split; [| reflexivity].
  rewrite list_lookup_alter_eq, Hx. simpl. rewrite Hp. reflexivity.
Qed.

(** C4. Fire and success exclude each other for every waiter.  A caller
    that waits gets a pending promise and a timer due 10000 ms later; when
    that timer fires on a pending waiter the promise rejects with the
    timeout error while its callback stays queued; a rejected promise stays
    rejected through every later step, in particular through [onRefreshed]
    calling its callback with the refreshed token; and a promise fulfilled
    with a token stays fulfilled with it, its timer being cleared. *)
Theorem timeout_excludes_success :
  (forall (s : Coordinator) (c : nat),
      isRefreshing s = true ->
      waiters (step s (Call c)) !! length (waiters s)
      = Some {| promise := Pending; timer := Some (now s + 10000);
                since := now s; owner := c |})
  /\ (forall (s : Coordinator) (w : nat) (x : Waiter) (d : Z),
        waiters s !! w = Some x -> timer x = Some d -> d <= now s ->
        promise x = Pending ->
        promise_of (step s (Fire w)) w
        = Some (Rejected (JsError "Token refresh timeout"))
        /\ refreshSubscribers (step s (Fire w)) = refreshSubscribers s)
  /\ (forall (s : Coordinator) (w : nat) (e : exn) (steps : list Step),
        promise_of s w = Some (Rejected e) ->
        promise_of (exec s steps) w = Some (Rejected e))
  /\ (forall (s : Coordinator) (w : nat) (e : exn) (token : string),
        promise_of s w = Some (Rejected e) ->
        promise_of (onRefreshed token s) w = Some (Rejected e))
  /\ (forall (s : Coordinator) (w : nat) (token : string) (steps : list Step),
        promise_of s w = Some (Fulfilled token) ->
        promise_of (exec s steps) w = Some (Fulfilled token)).
Proof.
  split; [| split; [| split; [| split]]].
  - intros s c Hf.
    destruct (enter_while_refreshing s c Hf) as (_ & _ & _ & _ & Hw).
    rewrite Hw, list_lookup_middle by reflexivity. reflexivity.
  - intros s w x d Hx Ht Hd Hp. eapply timeout_rejects; eassumption.
  - intros s w e steps Hw. apply exec_keeps_settled; [exact Hw | discriminate].
  - intros s w e token Hw.
    apply onRefreshed_keeps_settled; [exact Hw | discriminate].
  - intros s w token steps Hw.
    apply exec_keeps_settled; [exact Hw | discriminate].
Qed.

(** Waiter 0 times out after ten seconds; the refresh then succeeds and
    [onRefreshed] calls its callback, to no effect. *)
Lemma timeout_excludes_success_witness :
  promise_of (exec init [Call 0; Call 1; Elapse 10000; Fire 0]%nat) 0
  = Some (Rejected (JsError "Token refresh timeout"))
  /\ refreshSubscribers (exec init [Call 0; Call 1; Elapse 10000; Fire 0]%nat)
     = [0%nat]
  /\ promise_of
       (exec (exec init [Call 0; Call 1; Elapse 10000; Fire 0]%nat)
          [Settle 0 (RefreshOk (Some "fresh"))]) 0
     = Some (Rejected (JsError "Token refresh timeout"))
  /\ promise_of
       (exec (exec init [Call 0; Call 1; Settle 0 (RefreshOk (Some "fresh"))]%nat)
          [Elapse 10000; Fire 0%nat]) 0
     = Some (Fulfilled "fresh").
Proof.
  destruct timeout_excludes_success as (_ & Hfire & Hrej & _ & Hful).
  split; [| split; [| split]].
  - apply (Hfire (exec init [Call 0; Call 1; Elapse 10000]%nat) 0%nat
             {| promise := Pending; timer := Some 10000; since := 0;
                owner := 1 |} 10000);
      [reflexivity | reflexivity | vm_compute; discriminate | reflexivity].
  - reflexivity.
  - apply Hrej. reflexivity.
  - apply Hful. reflexivity.
Defined.

(** ** Every waiter keeps its deadline *)

Lemma Forall_alter_ok (f : Waiter -> Waiter) t i (ws : list Waiter) :
  (forall x, waiter_ok t x -> waiter_ok t (f x)) ->
  Forall (waiter_ok t) ws -> Forall (waiter_ok t) (alter f i ws).
Proof. intros Hf Hws. apply Forall_alter; [exact Hws | intros x _; apply Hf]. Qed.

Lemma settle_ok st t x :
  st <> Pending -> waiter_ok t x -> waiter_ok t (settle st (clearTimeout x)).
Proof.
  intros Hst [Hsince _]. split; [exact Hsince |]. simpl.
  destruct (promise x); [exact Hst | discriminate ..].
Qed.

Lemma callbacks_ok token t subs (ws : list Waiter) :
  Forall (waiter_ok t) ws -> Forall (waiter_ok t) (fold_left (callback token) subs ws).
Proof.
  revert ws. induction subs as [| i subs IH]; intros ws Hws; [exact Hws |].
  simpl. apply IH. unfold callback. apply Forall_alter_ok; [| exact Hws].
  intros x. apply settle_ok. discriminate.
Qed.

Lemma step_timers_ok s e : timers_ok s -> timers_ok (step s e).
Proof.
  unfold timers_ok. intros Hs. destruct e as [c | c r | i | d | page]; simpl.
  - unfold handle401Error_enter. destruct (isRefreshing s); simpl; [| exact Hs].
    apply Forall_app. split; [exact Hs |].
    constructor; [| constructor]. split; simpl; [lia | reflexivity].
  - destruct (existsb (Nat.eqb c) (executing s)); [| exact Hs].
    destruct r as [[t |] | err]; simpl; try exact Hs.
    destruct (truthy_string t); simpl; [| exact Hs].
    apply callbacks_ok, Hs.
  - destruct (waiters s !! i) as [x |]; [| exact Hs].
    destruct (timer x) as [d |]; [| exact Hs].
    destruct (d <=? now s); [| exact Hs].
    simpl. apply Forall_alter_ok; [| exact Hs].
    intros y. apply settle_ok. discriminate.
  - destruct (0 <=? d) eqn:Hd; simpl; [| exact Hs].
    apply Z.leb_le in Hd.
    rewrite Forall_forall in Hs |- *. intros x Hx.
    destruct (Hs x Hx) as [Hsince Ht]. split; [lia | exact Ht].
  - exact Hs.
Qed.

Lemma exec_timers_ok steps s : timers_ok s -> timers_ok (exec s steps).
Proof.
  revert s. induction steps as [| e steps IH]; intros s Hs; [exact Hs |].
  rewrite exec_cons. apply IH, step_timers_ok, Hs.
Qed.

(** A waiter that is still pending has its timer armed, due 10000 ms after
    it registered. *)
Lemma wait_bounded login steps w x :
  waiters (exec (boot login) steps) !! w = Some x ->
  promise x = Pending ->
  timer x = Some (since x + 10000)
  /\ since x <= now (exec (boot login) steps).
Proof.
  intros Hx Hp.
  assert (Hok : timers_ok (exec (boot login) steps)).
  { apply exec_timers_ok. constructor. }
  unfold timers_ok in Hok. rewrite Forall_forall in Hok.
  destruct (Hok x) as [Hsince Ht].
  { apply list_elem_of_lookup. exists w. exact Hx. }
  destruct (timer x) as [d |]; [| contradiction].
  subst d. split; [reflexivity | exact Hsince].
Qed.

(** ** How the refreshing call leaves *)

(** The [finally] block runs on both exits. *)
Lemma resume_clears_flag c r s : isRefreshing (handle401Error_resume c r s) = false.
Proof.
  destruct r as [[t |] | e]; simpl; try reflexivity.
  destruct (truthy_string t); reflexivity.
Qed.

(** The successful exit releases every queued waiter and empties the queue. *)
Lemma resume_success c t s :
  truthy_string t = true ->
  refreshSubscribers (handle401Error_resume c (RefreshOk (Some t)) s) = []
  /\ returned (handle401Error_resume c (RefreshOk (Some t)) s)
     = returned s ++ [(c, inr t)]
  /\ clearAuthCalls (handle401Error_resume c (RefreshOk (Some t)) s)
     = clearAuthCalls s.
Proof. intros Ht. simpl. rewrite Ht. simpl. auto. Qed.

(** The failing exit clears the credentials and throws to its caller; it
    touches neither the queue nor any waiter. *)
Lemma resume_failure c r s :
  refresh_fails r = true ->
  refreshSubscribers (handle401Error_resume c r s) = refreshSubscribers s
  /\ waiters (handle401Error_resume c r s) = waiters s
  /\ returned (handle401Error_resume c r s)
     = returned s ++ [(c, inl (refresh_error r))]
  /\ clearAuthCalls (handle401Error_resume c r s) = S (clearAuthCalls s).
Proof.
  destruct r as [[t |] | e]; simpl; intros Hr; auto.
  apply negb_true_iff in Hr. rewrite Hr. simpl. auto.
Qed.

Lemma existsb_eqb_In c (l : list nat) : In c l -> existsb (Nat.eqb c) l = true.
Proof.
  intros Hin. apply existsb_exists. exists c. split; [exact Hin |].
  apply Nat.eqb_refl.
Qed.

(** C2. The exits of the refreshing call.  The user is on the login page;
    caller 0 refreshes, caller 1 waits, and the provider rejects.  When the
    refreshing call has left, the flag is cleared but the queue still holds
    the callback of waiter 0, whose promise is pending: the failing exit
    does not empty the queue, which the successful exit does. *)
Theorem failed_refresh_keeps_queue :
  isRefreshing
    (exec (boot true)
       [Call 0; Call 1; Settle 0 (RefreshFailed (JsError "refresh rejected"))]%nat)
  = false
  /\ refreshSubscribers
       (exec (boot true)
          [Call 0; Call 1; Settle 0 (RefreshFailed (JsError "refresh rejected"))]%nat)
     = [0%nat]
  /\ promise_of
       (exec (boot true)
          [Call 0; Call 1; Settle 0 (RefreshFailed (JsError "refresh rejected"))]%nat)
       0
     = Some Pending
  /\ refreshSubscribers
       (exec (boot true)
          [Call 0; Call 1; Settle 0 (RefreshOk (Some "fresh"))]%nat)
     = [].
Proof. repeat split. Qed.

(** C3. Waiters of a failed refresh.  The user is on the login page;
    caller 0 refreshes, caller 1 waits, and the provider rejects.  Three
    seconds later caller 2 finds the flag clear and refreshes with success:
    [onRefreshed] finds the callback of waiter 0 still queued and fulfils
    its promise, so a waiter of the failed refresh resolves successfully. *)
Theorem waiter_of_failed_refresh_resolves :
  promise_of
    (exec (boot true)
       [Call 0; Call 1; Settle 0 (RefreshFailed (JsError "refresh rejected"))]%nat)
    0
  = Some Pending
  /\ promise_of
       (exec (boot true)
          [Call 0; Call 1; Settle 0 (RefreshFailed (JsError "refresh rejected"));
           Elapse 3000; Call 2; Settle 2 (RefreshOk (Some "fresh"))]%nat)
       0
     = Some (Fulfilled "fresh")
  /\ redirects
       (exec (boot true)
          [Call 0; Call 1; Settle 0 (RefreshFailed (JsError "refresh rejected"));
           Elapse 3000; Call 2; Settle 2 (RefreshOk (Some "fresh"))]%nat)
     = 0%nat.
Proof. repeat split. Qed.

(** Without a later successful refresh a waiter of a failed refresh can
    only reject, with the timeout error, 10000 ms after it registered. *)
Lemma waiter_of_failed_refresh_times_out :
  promise_of
    (exec (boot true)
       [Call 0; Call 1; Settle 0 (RefreshFailed (JsError "refresh rejected"));
        Elapse 10000; Fire 0]%nat)
    0
  = Some (Rejected (JsError "Token refresh timeout")).
Proof. reflexivity. Qed.

(** C7, as the claim states it, fails: the provider fulfils, no token is
    stored, and the refreshing call of caller 0 throws an error that has no
    code, so none with the code REFRESH_NO_TOKEN; waiter 0 is not told. *)
Lemma refresh_without_token_has_no_code :
  ~ (exists e : exn,
        In (0%nat, inl e)
          (returned (exec init [Call 0; Call 1; Settle 0 (RefreshOk None)]%nat))
        /\ error_code e = Some (str "REFRESH_NO_TOKEN"))
  /\ promise_of (exec init [Call 0; Call 1; Settle 0 (RefreshOk None)]%nat) 0
     = Some Pending.
Proof.
  split; [| reflexivity].
  intros (e & [Hin | []] & Hcode). injection Hin as <-. discriminate.
Qed.

(** C7, amended.  When the provider's refresh fulfils but the token read
    afterwards is absent or empty, the refreshing call treats it as a
    failure: it throws to its caller a plain [Error] with the message
    "Failed to get new token after refresh", which carries no code; the
    credentials are cleared once, the in-flight flag is cleared, and no
    waiter is settled by it. *)
Theorem refresh_without_token_fails (s : Coordinator) (c : nat)
  (accessToken : option string) :
  In c (executing s) ->
  (accessToken = None \/ accessToken = Some "") ->
  returned (step s (Settle c (RefreshOk accessToken)))
  = returned s ++ [(c, inl (JsError "Failed to get new token after refresh"))]
  /\ error_code (JsError "Failed to get new token after refresh") = None
  /\ clearAuthCalls (step s (Settle c (RefreshOk accessToken)))
     = S (clearAuthCalls s)
  /\ isRefreshing (step s (Settle c (RefreshOk accessToken))) = false
  /\ waiters (step s (Settle c (RefreshOk accessToken))) = waiters s.
Proof.
  intros Hin Htok. cbn [step]. rewrite (existsb_eqb_In _ _ Hin).
  assert (Hf : refresh_fails (RefreshOk accessToken) = true).
  { destruct Htok as [-> | ->]; reflexivity. }
  destruct (resume_failure c (RefreshOk accessToken)
              (set_executing (remove_first c (executing s)) s) Hf)
    as (_ & Hw & Hr & Hc).
  rewrite Hr, Hc, Hw, resume_clears_flag. repeat split.
Qed.

Lemma refresh_without_token_fails_witness :
  returned (step (exec init [Call 0; Call 1]%nat) (Settle 0 (RefreshOk None)))
  = [(0%nat, inl (JsError "Failed to get new token after refresh"))]
  /\ clearAuthCalls
       (step (exec init [Call 0; Call 1]%nat) (Settle 0 (RefreshOk None)))
     = 1%nat.
Proof.
  split;
    apply (refresh_without_token_fails (exec init [Call 0; Call 1]%nat) 0%nat None);
    solve [simpl; auto].
Defined.

(** ** Accounting of the side effects *)

Lemma failures_snoc s c r :
  length (List.filter is_failure (returned s ++ [(c, r)]))
  = (failures s + (if is_failure (c, r) then 1 else 0))%nat.
Proof.
  unfold failures. rewrite List.filter_app, length_app. simpl.
  destruct (is_failure (c, r)); reflexivity.
Qed.

(** [clearAuthAndRedirect] is called by the failing exit of the refreshing
    call and by nothing else; it reads the path when it is called. *)
Lemma step_clears s e :
  (clearAuthCalls (step s e) = clearAuthCalls s
   /\ redirects (step s e) = redirects s
   /\ failures (step s e) = failures s)
  \/ (clearAuthCalls (step s e) = S (clearAuthCalls s)
      /\ redirects (step s e)
         = (if onLoginPage s then redirects s else S (redirects s))
      /\ failures (step s e) = S (failures s)
      /\ exists c r, e = Settle c r /\ In c (executing s)
                     /\ refresh_fails r = true).
Proof.
  assert (Hsnoc := failures_snoc s). unfold failures in *.
  destruct e as [c | c r | w | d | page]; simpl.
  - left. unfold handle401Error_enter. destruct (isRefreshing s); simpl; auto.
  - destruct (existsb (Nat.eqb c) (executing s)) eqn:Hin; [| left; auto].
    assert (Hc : In c (executing s)).
    { apply existsb_exists in Hin as (c' & Hc' & Heq).
      apply Nat.eqb_eq in Heq. subst c'. exact Hc'. }
    destruct r as [[t |] | err]; simpl.
    + destruct (truthy_string t) eqn:Ht; simpl; rewrite Hsnoc; simpl.
      * left. repeat split; lia.
      * right. repeat split; try lia.
        exists c, (RefreshOk (Some t)). simpl. rewrite Ht. auto.
    + rewrite Hsnoc. simpl. right. repeat split; try lia.
      exists c, (RefreshOk None). auto.
    + rewrite Hsnoc. simpl. right. repeat split; try lia.
      exists c, (RefreshFailed err). auto.
  - left. destruct (waiters s !! w) as [x |]; [| auto].
    destruct (timer x) as [d |]; [| auto].
    destruct (d <=? now s); auto.
  - left. destruct (0 <=? d); auto.
  - left. auto.
Qed.

Lemma step_accounts s e : accounts s -> accounts (step s e).
Proof.
  unfold accounts. intros (Hc & Hr).
  destruct (step_clears s e) as [(Hc' & Hr' & Hf') | (Hc' & Hr' & Hf' & _)].
  - rewrite Hc', Hr', Hf'. auto.
  - rewrite Hc', Hr', Hf'. split; [congruence |].
    destruct (onLoginPage s); lia.
Qed.

Lemma exec_accounts steps s : accounts s -> accounts (exec s steps).
Proof.
  revert s. induction steps as [| e steps IH]; intros s Hs; [exact Hs |].
  rewrite exec_cons. apply IH, step_accounts, Hs.
Qed.

(** X1. [clearAuthAndRedirect] runs once for each refreshing call that
    throws and never otherwise.  In every run of the coordinator, with the
    page moving between paths as it may, [clearAuth()] has been called
    exactly once for each refreshing call that threw, and [location.href]
    has been assigned at most as often.  Each failing exit of a refreshing
    call calls [clearAuth()] once and assigns [location.href] exactly when
    the path read at that moment (line 183) is not the login path; every
    other step (a caller entering, a successful exit, a timer, time
    passing, a navigation) does neither. *)
Theorem credentials_cleared_once_per_failure (login : bool) (steps : list Step) :
  clearAuthCalls (exec (boot login) steps) = failures (exec (boot login) steps)
  /\ (redirects (exec (boot login) steps)
      <= clearAuthCalls (exec (boot login) steps))%nat
  /\ (forall c r,
        In c (executing (exec (boot login) steps)) ->
        refresh_fails r = true ->
        clearAuthCalls (step (exec (boot login) steps) (Settle c r))
        = S (clearAuthCalls (exec (boot login) steps))
        /\ redirects (step (exec (boot login) steps) (Settle c r))
           = (if onLoginPage (exec (boot login) steps)
              then redirects (exec (boot login) steps)
              else S (redirects (exec (boot login) steps))))
  /\ (forall e,
        (forall c r, e = Settle c r ->
                     In c (executing (exec (boot login) steps)) ->
                     refresh_fails r = false) ->
        clearAuthCalls (step (exec (boot login) steps) e)
        = clearAuthCalls (exec (boot login) steps)
        /\ redirects (step (exec (boot login) steps) e)
           = redirects (exec (boot login) steps)).
Proof.
  set (s := exec (boot login) steps).
  destruct (exec_accounts steps (boot login)) as (Hc & Hr).
  { split; simpl; [reflexivity | lia]. }
  fold s in Hc, Hr.
  split; [exact Hc |]. split; [exact Hr |]. split.
  - intros c r Hin Hfail. cbn [step]. rewrite (existsb_eqb_In _ _ Hin).
    destruct r as [[t |] | err]; simpl in Hfail |- *.
    + apply negb_true_iff in Hfail. rewrite Hfail. simpl. auto.
    + auto.
    + auto.
  - intros e He.
    destruct (step_clears s e) as [(Hc' & Hr' & _) | (_ & _ & _ & Hex)];
      [auto |].
    destruct Hex as (c & r & -> & Hin & Hfail).
    rewrite (He c r eq_refl Hin) in Hfail. discriminate.
Qed.

Lemma credentials_cleared_once_per_failure_witness :
  clearAuthCalls
    (exec (boot false)
       [Call 0; Call 1; Navigate true;
        Settle 0 (RefreshFailed (JsError "refresh rejected"))]%nat) = 1%nat
  /\ redirects
       (exec (boot false)
          [Call 0; Call 1; Navigate true;
           Settle 0 (RefreshFailed (JsError "refresh rejected"))]%nat) = 0%nat
  /\ redirects
       (exec (boot true)
          [Call 0; Navigate false;
           Settle 0 (RefreshFailed (JsError "refresh rejected"))]%nat) = 1%nat
  /\ clearAuthCalls
       (exec (boot false)
          [Call 0; Call 1; Elapse 10000; Fire 0]%nat) = 0%nat.
Proof.
  destruct (credentials_cleared_once_per_failure false
              [Call 0; Call 1; Navigate true]%nat) as (_ & _ & Hfail & _).
  destruct (Hfail 0%nat (RefreshFailed (JsError "refresh rejected")))
    as [Hc Hr]; [simpl; auto | reflexivity |].
  destruct (credentials_cleared_once_per_failure true
              [Call 0; Navigate false]%nat) as (_ & _ & Hfail' & _).
  destruct (Hfail' 0%nat (RefreshFailed (JsError "refresh rejected")))
    as [_ Hr']; [simpl; auto | reflexivity |].
  destruct (credentials_cleared_once_per_failure false
              [Call 0; Call 1; Elapse 10000]%nat) as (_ & _ & _ & Hquiet).
  destruct (Hquiet (Fire 0%nat)) as [Hq _]; [intros c r Hne; discriminate |].
  split; [exact Hc |]. split; [exact Hr |]. split; [exact Hr' | exact Hq].
Defined.

(** ** What [onRefreshed] does to the waiters *)

Lemma released_twice token x : released token (released token x) = released token x.
Proof. unfold released, settle, clearTimeout. simpl. destruct (promise x); reflexivity. Qed.

Lemma callbacks_length token subs (ws : list Waiter) :
  length (fold_left (callback token) subs ws) = length ws.
Proof.
  revert ws. induction subs as [| i subs IH]; intros ws; [reflexivity |].
  simpl. rewrite IH. unfold callback. apply length_alter.
Qed.

Lemma callbacks_lookup_out token subs (ws : list Waiter) w :
  ~ In w subs -> fold_left (callback token) subs ws !! w = ws !! w.
Proof.
  revert ws. induction subs as [| i subs IH]; intros ws Hw; [reflexivity |].
  simpl in Hw |- *. rewrite IH by tauto. unfold callback.
  apply list_lookup_alter_ne. tauto.
Qed.

Lemma callbacks_lookup_in token subs (ws : list Waiter) w :
  In w subs ->
  fold_left (callback token) subs ws !! w = released token <$> ws !! w.
Proof.
  revert ws. induction subs as [| i subs IH]; intros ws Hw; [destruct Hw |].
  simpl. destruct (in_dec Nat.eq_dec w subs) as [Hin | Hout].
  - rewrite IH by exact Hin. unfold callback.
    destruct (decide (i = w)) as [-> | Hne].
    + rewrite list_lookup_alter_eq. destruct (ws !! w) as [x |]; [| reflexivity].
      simpl. f_equal. apply released_twice.
    + rewrite list_lookup_alter_ne by exact Hne. reflexivity.
  - destruct Hw as [-> | Hw]; [| contradiction].
    rewrite callbacks_lookup_out by exact Hout. unfold callback.
    apply list_lookup_alter_eq.
Qed.

Lemma callbacks_Forall (Q : Waiter -> Prop) token subs (ws : list Waiter) :
  (forall x, Q x -> Q (released token x)) ->
  Forall Q ws -> Forall Q (fold_left (callback token) subs ws).
Proof.
  intros HQ. revert ws. induction subs as [| i subs IH]; intros ws Hws; [exact Hws |].
  simpl. apply IH. unfold callback. apply Forall_alter; [exact Hws |].
  intros x _. apply HQ.
Qed.

(** X3. A successful refresh releases the whole queue at once.  When the
    refresher resumes with a token, every queued waiter that is pending is
    fulfilled with that token and its timer is cleared, every waiter that is
    not queued is left as it is, the refreshing call returns that same
    token, and the queue is empty. *)
Theorem success_releases_queue (s : Coordinator) (c : nat) (t : string) :
  In c (executing s) ->
  truthy_string t = true ->
  (forall w x, In w (refreshSubscribers s) -> waiters s !! w = Some x ->
               promise x = Pending ->
               waiters (step s (Settle c (RefreshOk (Some t)))) !! w
               = Some {| promise := Fulfilled t; timer := None;
                         since := since x; owner := owner x |})
  /\ (forall w, ~ In w (refreshSubscribers s) ->
                waiters (step s (Settle c (RefreshOk (Some t)))) !! w
                = waiters s !! w)
  /\ returned (step s (Settle c (RefreshOk (Some t)))) = returned s ++ [(c, inr t)]
  /\ refreshSubscribers (step s (Settle c (RefreshOk (Some t)))) = []
  /\ isRefreshing (step s (Settle c (RefreshOk (Some t)))) = false.
Proof.
  intros Hin Ht. cbn [step]. rewrite (existsb_eqb_In _ _ Hin).
  cbn [handle401Error_resume]. rewrite Ht. simpl.
  split; [| split; [| auto]].
  - intros w x Hw Hx Hp. rewrite callbacks_lookup_in by exact Hw.
    rewrite Hx. simpl. unfold released, settle. simpl. rewrite Hp. reflexivity.
  - intros w Hw. apply callbacks_lookup_out, Hw.
Qed.

Lemma success_releases_queue_witness :
  waiters (step (exec init [Call 0; Call 1; Call 2]%nat)
             (Settle 0 (RefreshOk (Some "fresh")))) !! 1%nat
  = Some {| promise := Fulfilled "fresh"; timer := None; since := 0;
            owner := 2%nat |}.
Proof.
  destruct (success_releases_queue (exec init [Call 0; Call 1; Call 2]%nat)
              0%nat "fresh") as (Hrel & _);
    [left; reflexivity | reflexivity |].
  apply (Hrel 1%nat {| promise := Pending; timer := Some 10000; since := 0;
                       owner := 2%nat |});
    [right; left; reflexivity | reflexivity | reflexivity].
Defined.

(** ** Tokens, queue and pending waiters *)

Lemma step_tokens_ok s e : tokens_ok s -> tokens_ok (step s e).
Proof.
  unfold tokens_ok. intros [Hr Hw]. destruct e as [c | c r | w | d | page]; simpl.
  - unfold handle401Error_enter. destruct (isRefreshing s); simpl; [| auto].
    split; [exact Hr |]. apply Forall_app. split; [exact Hw |].
    constructor; [exact I | constructor].
  - destruct (existsb (Nat.eqb c) (executing s)); [| auto].
    assert (Hfail : forall err,
               Forall (fun p => match snd p with
                                | inr t => t <> ""
                                | inl _ => True
                                end) (returned s ++ [(c, inl err)])).
    { intros err. apply Forall_app. split; [exact Hr |].
      constructor; [exact I | constructor]. }
    destruct r as [[t |] | err]; simpl; try (split; [apply Hfail | exact Hw]).
    destruct (truthy_string t) eqn:Ht; simpl; [| split; [apply Hfail | exact Hw]].
    assert (Hne : t <> "").
    { unfold truthy_string in Ht. apply negb_true_iff, String.eqb_neq in Ht.
      exact Ht. }
    split.
    + apply Forall_app. split; [exact Hr |]. constructor; [exact Hne | constructor].
    + apply callbacks_Forall; [| exact Hw].
      intros x Hx. unfold released, settle. simpl.
      destruct (promise x); [exact Hne | exact Hx | exact I].
  - destruct (waiters s !! w) as [x |]; [| auto].
    destruct (timer x) as [d |]; [| auto].
    destruct (d <=? now s); [| auto].
    simpl. split; [exact Hr |]. apply Forall_alter; [exact Hw |].
    intros y _ Hy. simpl. destruct (promise y); [exact I | exact Hy | exact I].
  - destruct (0 <=? d); auto.
  - auto.
Qed.

Lemma exec_tokens_ok steps s : tokens_ok s -> tokens_ok (exec s steps).
Proof.
  revert s. induction steps as [| e steps IH]; intros s Hs; [exact Hs |].
  rewrite exec_cons. apply IH, step_tokens_ok, Hs.
Qed.

(** X4. No token the coordinator hands out is empty: in every run, what a
    refreshing call returned and what a waiter was fulfilled with is a
    non-empty string, so the [if (newToken)] test of [request] never fails
    on it. *)
Theorem tokens_never_empty (login : bool) (steps : list Step) :
  (forall c t, In (c, inr t) (returned (exec (boot login) steps)) -> t <> "")
  /\ (forall w t, promise_of (exec (boot login) steps) w = Some (Fulfilled t) ->
                  t <> "").
Proof.
  destruct (exec_tokens_ok steps (boot login)) as [Hr Hw].
  { split; constructor. }
  rewrite Forall_forall in Hr. rewrite Forall_forall in Hw. split.
  - intros c t Hin. apply list_elem_of_In in Hin. apply (Hr _ Hin).
  - intros w t Hp. unfold promise_of in Hp.
    destruct (waiters (exec (boot login) steps) !! w) as [x |] eqn:Hx;
      [| discriminate].
    simpl in Hp. injection Hp as Hp.
    assert (Hin : x ∈ waiters (exec (boot login) steps)).
    { apply list_elem_of_lookup. exists w. exact Hx. }
    specialize (Hw x Hin). rewrite Hp in Hw. exact Hw.
Qed.

Lemma tokens_never_empty_witness :
  "fresh" <> ""
  /\ promise_of
       (exec init [Call 0; Call 1; Settle 0 (RefreshOk (Some "fresh"))]%nat) 0
     = Some (Fulfilled "fresh").
Proof.
  split; [| reflexivity].
  destruct (tokens_never_empty false
              [Call 0; Call 1; Settle 0 (RefreshOk (Some "fresh"))]%nat)
    as (Hret & _).
  apply (Hret 0%nat "fresh"). left. reflexivity.
Defined.

Lemma step_queue_ok s e : queue_ok s -> queue_ok (step s e).
Proof.
  unfold queue_ok. intros [Hb Ho]. destruct e as [c | c r | w | d | page]; simpl.
  - unfold handle401Error_enter. destruct (isRefreshing s); simpl; [| auto].
    split.
    + apply Forall_app. split.
      * eapply Forall_impl; [exact Hb |]. intros w Hw. simpl in Hw.
        rewrite length_app. simpl. lia.
      * constructor; [| constructor]. rewrite length_app. simpl. lia.
    + intros i j a b Hi Hj Hij.
      apply lookup_snoc_Some in Hi as [[Hil Hi] | [Hil Hi]];
        apply lookup_snoc_Some in Hj as [[Hjl Hj] | [Hjl Hj]].
      * eapply Ho; eassumption.
      * subst b. rewrite Forall_forall in Hb. apply Hb.
        apply list_elem_of_lookup. eauto.
      * lia.
      * lia.
  - destruct (existsb (Nat.eqb c) (executing s)); [| auto].
    destruct r as [[t |] | err]; simpl; auto.
    destruct (truthy_string t); simpl; [| auto].
    split; [constructor |]. intros i j a b Hi. discriminate.
  - destruct (waiters s !! w) as [x |]; [| auto].
    destruct (timer x) as [d |]; [| auto].
    destruct (d <=? now s); [| auto].
    simpl. rewrite length_alter. auto.
  - destruct (0 <=? d); auto.
  - auto.
Qed.

Lemma exec_queue_ok steps s : queue_ok s -> queue_ok (exec s steps).
Proof.
  revert s. induction steps as [| e steps IH]; intros s Hs; [exact Hs |].
  rewrite exec_cons. apply IH, step_queue_ok, Hs.
Qed.

(** X5. The queue keeps the order of arrival.  In every run each queued
    callback belongs to a waiter that exists, and the queue lists the
    waiters in the order in which they registered, none of them twice. *)
Theorem queue_in_arrival_order (login : bool) (steps : list Step) :
  (forall w, In w (refreshSubscribers (exec (boot login) steps)) ->
             exists x, waiters (exec (boot login) steps) !! w = Some x)
  /\ (forall i j a b,
         refreshSubscribers (exec (boot login) steps) !! i = Some a ->
         refreshSubscribers (exec (boot login) steps) !! j = Some b ->
         (i < j)%nat -> (a < b)%nat)
  /\ NoDup (refreshSubscribers (exec (boot login) steps)).
Proof.
  destruct (exec_queue_ok steps (boot login)) as [Hb Ho].
  { split; [constructor |]. intros i j a b Hi. discriminate. }
  split; [| split; [exact Ho |]].
  - intros w Hw. rewrite Forall_forall in Hb. apply list_elem_of_In in Hw.
    apply lookup_lt_is_Some_2, (Hb w Hw).
  - apply NoDup_alt. intros i j a Hi Hj.
    destruct (Nat.lt_trichotomy i j) as [Hlt | [Heq | Hgt]]; [| exact Heq |].
    + specialize (Ho i j a a Hi Hj Hlt). lia.
    + specialize (Ho j i a a Hj Hi Hgt). lia.
Qed.

Lemma queue_in_arrival_order_witness :
  refreshSubscribers (exec init [Call 0; Call 1; Call 2; Call 3]%nat)
  = [0; 1; 2]%nat
  /\ (1 < 2)%nat.
Proof.
  split; [reflexivity |].
  destruct (queue_in_arrival_order false [Call 0; Call 1; Call 2; Call 3]%nat)
    as (_ & Horder & _).
  apply (Horder 1%nat 2%nat 1%nat 2%nat); [reflexivity | reflexivity | lia].
Defined.

Lemma released_not_pending token x : promise (released token x) <> Pending.
Proof. unfold released, settle. simpl. destruct (promise x); discriminate. Qed.

Lemma step_pending_queued s e : pending_queued s -> pending_queued (step s e).
Proof.
  unfold pending_queued. intros Hs. destruct e as [c | c r | i | d | page]; simpl.
  - unfold handle401Error_enter. destruct (isRefreshing s); simpl; [| exact Hs].
    intros w x Hx Hp. apply in_or_app.
    apply lookup_snoc_Some in Hx as [[_ Hx] | [-> _]].
    + left. eapply Hs; eassumption.
    + right. left. reflexivity.
  - destruct (existsb (Nat.eqb c) (executing s)); [| exact Hs].
    destruct r as [[t |] | err]; simpl; try exact Hs.
    destruct (truthy_string t); simpl; [| exact Hs].
    intros w x Hx Hp. exfalso.
    destruct (in_dec Nat.eq_dec w (refreshSubscribers s)) as [Hin | Hout].
    + rewrite callbacks_lookup_in in Hx by exact Hin.
      destruct (waiters s !! w) as [y |]; [| discriminate].
      simpl in Hx. injection Hx as <-. apply (released_not_pending _ _ Hp).
    + rewrite callbacks_lookup_out in Hx by exact Hout.
      apply Hout. eapply Hs; eassumption.
  - destruct (waiters s !! i) as [y |] eqn:Hy; [| exact Hs].
    destruct (timer y) as [d |]; [| exact Hs].
    destruct (d <=? now s); [| exact Hs].
    simpl. intros w x Hx Hp. destruct (decide (i = w)) as [-> | Hne].
    + rewrite list_lookup_alter_eq, Hy in Hx. simpl in Hx. injection Hx as <-.
      simpl in Hp. destruct (promise y); discriminate.
    + rewrite list_lookup_alter_ne in Hx by exact Hne. eapply Hs; eassumption.
  - destruct (0 <=? d); exact Hs.
  - exact Hs.
Qed.

Lemma exec_pending_queued steps s : pending_queued s -> pending_queued (exec s steps).
Proof.
  revert s. induction steps as [| e steps IH]; intros s Hs; [exact Hs |].
  rewrite exec_cons. apply IH, step_pending_queued, Hs.
Qed.

(** X6. No waiter is lost.  In every run a waiter whose promise is still
    pending has its callback in the queue and its timer armed, due 10000 ms
    after it registered.  (Nothing is said of the clock: a timer that is due
    may fire late.) *)
Theorem pending_waiter_is_queued (login : bool) (steps : list Step) (w : nat)
  (x : Waiter) :
  waiters (exec (boot login) steps) !! w = Some x ->
  promise x = Pending ->
  In w (refreshSubscribers (exec (boot login) steps))
  /\ timer x = Some (since x + 10000).
Proof.
  intros Hx Hp. split; [| apply (wait_bounded login steps w x Hx Hp)].
  assert (Hq : pending_queued (exec (boot login) steps)).
  { apply exec_pending_queued. intros w' x' Hx'. discriminate. }
  apply (Hq w x Hx Hp).
Qed.

Lemma pending_waiter_is_queued_witness :
  In 0%nat
    (refreshSubscribers
       (exec (boot true)
          [Call 0; Call 1; Elapse 4000;
           Settle 0 (RefreshFailed (JsError "refresh rejected"))]%nat))
  /\ Some 10000 = Some (0 + 10000).
Proof.
  destruct (pending_waiter_is_queued true
              [Call 0; Call 1; Elapse 4000;
               Settle 0 (RefreshFailed (JsError "refresh rejected"))]%nat
              0%nat
              {| promise := Pending; timer := Some 10000; since := 0;
                 owner := 1%nat |} eq_refl eq_refl)
    as (Hq & Hb).
  split; [exact Hq | exact Hb].
Defined.

Lemma success_releases_queue_empty s c t :
  In c (executing s) -> truthy_string t = true ->
  refreshSubscribers (step s (Settle c (RefreshOk (Some t)))) = [].
Proof.
  intros Hin Ht. cbn [step]. rewrite (existsb_eqb_In _ _ Hin).
  apply resume_success, Ht.
Qed.

(** X7. After a successful refresh nobody waits: in every run, when the
    refresher resumes with a token, no promise of any waiter is pending
    afterwards. *)
Theorem success_leaves_none_pending (login : bool) (steps : list Step) (c : nat)
  (t : string) (w : nat) (x : Waiter) :
  In c (executing (exec (boot login) steps)) ->
  truthy_string t = true ->
  waiters (step (exec (boot login) steps) (Settle c (RefreshOk (Some t)))) !! w
  = Some x ->
  promise x <> Pending.
Proof.
  intros Hin Ht Hx Hp.
  assert (Hq : pending_queued
                 (step (exec (boot login) steps) (Settle c (RefreshOk (Some t))))).
  { apply step_pending_queued, exec_pending_queued.
    intros w' x' Hx'. discriminate. }
  specialize (Hq w x Hx Hp).
  rewrite (success_releases_queue_empty _ c t Hin Ht) in Hq. destruct Hq.
Qed.

Lemma success_leaves_none_pending_witness :
  Fulfilled "fresh" <> Pending.
Proof.
  apply (success_leaves_none_pending false [Call 0; Call 1; Call 2]%nat 0%nat
           "fresh" 1%nat
           {| promise := Fulfilled "fresh"; timer := None; since := 0;
              owner := 2%nat |});
    [left; reflexivity | reflexivity | reflexivity].
Defined.

Lemma resume_keeps_calls c r s :
  refreshCalls (handle401Error_resume c r s) = refreshCalls s
  /\ executing (handle401Error_resume c r s) = executing s.
Proof.
  destruct r as [[t |] | e]; simpl; auto.
  destruct (truthy_string t); simpl; auto.
Qed.

(** X18. A settled refresh never blocks the next one.  In every run, once
    the refresh in flight has settled, with success or not, the next caller
    of [handle401Error] does not wait: it starts one new refresh, and is the
    only one executing. *)
Theorem next_caller_refreshes_again (login : bool) (steps : list Step)
  (c c' : nat) (r : RefreshOutcome) :
  In c (executing (exec (boot login) steps)) ->
  isRefreshing (exec (boot login) (steps ++ [Settle c r; Call c'])) = true
  /\ executing (exec (boot login) (steps ++ [Settle c r; Call c'])) = [c']
  /\ refreshCalls (exec (boot login) (steps ++ [Settle c r; Call c']))
     = S (refreshCalls (exec (boot login) steps))
  /\ waiters (exec (boot login) (steps ++ [Settle c r; Call c']))
     = waiters (exec (boot login) (steps ++ [Settle c r])).
Proof.
  intros Hin. rewrite !exec_app.
  set (s := exec (boot login) steps) in *.
  assert (Hsf : single_flight s).
  { apply exec_single_flight. reflexivity. }
  unfold single_flight in Hsf.
  destruct (isRefreshing s) eqn:Hf; [| rewrite Hsf in Hin; destruct Hin].
  destruct Hsf as [c0 Hc0]. rewrite Hc0 in Hin. destruct Hin as [-> | []].
  change (exec s [Settle c r; Call c']) with (step (step s (Settle c r)) (Call c')).
  change (exec s [Settle c r]) with (step s (Settle c r)).
  assert (Hs1 : isRefreshing (step s (Settle c r)) = false
                /\ executing (step s (Settle c r)) = []
                /\ refreshCalls (step s (Settle c r)) = refreshCalls s).
  { cbn [step]. rewrite Hc0. simpl. rewrite Nat.eqb_refl. simpl.
    rewrite resume_clears_flag.
    destruct (resume_keeps_calls c r (set_executing [] s)) as [-> ->]. auto. }
  destruct Hs1 as (Hf1 & He1 & Hr1).
  destruct (enter_while_idle _ c' Hf1) as (Hf2 & Hr2 & He2 & _ & Hw2).
  rewrite Hf2, Hr2, He2, He1, Hr1, Hw2. auto.
Qed.

Lemma next_caller_refreshes_again_witness :
  refreshCalls
    (exec (boot true)
       ([Call 0; Call 1]%nat
        ++ [Settle 0 (RefreshFailed (JsError "refresh rejected")); Call 2]%nat))
  = 2%nat.
Proof.
  destruct (next_caller_refreshes_again true [Call 0; Call 1]%nat 0%nat 2%nat
              (RefreshFailed (JsError "refresh rejected")))
    as (_ & _ & Hcalls & _).
  - left. reflexivity.
  - exact Hcalls.
Defined.

(** * Properties of the request orchestrator *)

Example merged_headers_plain :
  merged_headers no_options "tok"
  = Some [("content-type", "application/json"); ("authorization", "Bearer tok")].
Proof. reflexivity. Qed.

Example merged_headers_case :
  (h ← merged_headers
     {| method := None; headers := Some (HRecord [("content-type", "text/plain")]);
        body := None |} "";
   Headers_get h "Content-Type")
  = Some "application/json, text/plain".
Proof. reflexivity. Qed.


Lemma reaches_bind {A B : Type} (p : Prog A) (f : A -> Prog B) log b :
  reaches (bind p f) log b <->
  exists a l1 l2, log = l1 ++ l2 /\ reaches p l1 a /\ reaches (f a) l2 b.
Proof.
  revert log. induction p as [a | X o k IH]; intros log; simpl.
  - split.
    + intros H. exists a, [], log. auto.
    + intros (a' & l1 & l2 & -> & [-> ->] & H). exact H.
  - split.
    + intros (x & log' & -> & H). apply IH in H as (a & l1 & l2 & -> & H1 & H2).
      exists a, (event_of o x :: l1), l2. split; [reflexivity |].
      split; [| exact H2]. exists x, l1. auto.
    + intros (a & l1 & l2 & -> & (x & l1' & -> & H1) & H2).
      exists x, (l1' ++ l2). split; [reflexivity |]. apply IH.
      exists a, l1', l2. auto.
Qed.

(** Whatever the environment answers, the program finishes. *)
Lemma run_reaches {A W : Type} (env : Env W) (p : Prog A) (w : W) :
  reaches p (log_of (run env p w)) (result_of (run env p w)).
Proof.
  revert w. induction p as [a | X o k IH]; intros w; simpl; [auto |].
  destruct (env X o w) as [x w1] eqn:Hx. specialize (IH x w1).
  destruct (run env (k x) w1) as [[a log] w2]. exists x, log. auto.
Qed.

Arguments refresh_failed : simpl never.
Arguments classify : simpl never.

Section ClientProperties.

Variable P : Platform.
Variable baseURL : string.

Lemma reaches_outer {A : Type} (p : M A) log res :
  reaches (try_catch p network_error) log res <->
  exists r, reaches p log r /\ res = outer r.
Proof.
  unfold try_catch. rewrite reaches_bind. split.
  - intros (r & l1 & l2 & -> & Hp & Hh). exists r.
    destruct r as [e | a]; simpl in Hh |- *.
    + unfold network_error in Hh. destruct (instanceof_ApiError e);
        destruct Hh as [-> ->]; rewrite app_nil_r; auto.
    + destruct Hh as [-> ->]. rewrite app_nil_r. auto.
  - intros (r & Hp & ->). exists r, log, []. rewrite app_nil_r.
    split; [reflexivity |]. split; [exact Hp |].
    destruct r as [e | a]; simpl; [| auto].
    unfold network_error. destruct (instanceof_ApiError e); simpl; auto.
Qed.

Lemma makeRequest_cases url options tok log r :
  reaches (makeRequest P url options tok) log r ->
  (merged_headers options tok = None /\ log = []
   /\ r = inl (JsError (invalid_header_message P)))
  \/ (exists h, merged_headers options tok = Some h
                /\ log = [EFetch (fetch_call url options h) r]).
Proof.
  unfold makeRequest. destruct (merged_headers options tok) as [h |]; simpl.
  - intros (x & log' & -> & -> & ->). right. exists h. auto.
  - intros [-> ->]. left. auto.
Qed.

Lemma unauthorized_thrown st :
  thrown_api_error P (JObj [("error", unauthorized)]) unauthorized st
  = unauthorized_error st.
Proof. reflexivity. Qed.

(** The handler of a failed refresh reads the body of the response it was
    given and throws. *)
Lemma refresh_failed_cases {A : Type} (r : Response) log (res : exn + A) :
  reaches (refresh_failed P r) log res ->
  exists a : exn + string,
    match a with
    | inl _ => log = [EText r a] /\ res = inl (unauthorized_error (status r))
    | inr t =>
        if truthy_string t then
          exists pa : string + json,
            log = [EText r a; EParse t pa]
            /\ res = inl (match pa with
                          | inl _ => unauthorized_error (status r)
                          | inr j => thrown_api_error P j unauthorized (status r)
                          end)
        else log = [EText r a] /\ res = inl (unauthorized_error (status r))
    end.
Proof.
  unfold refresh_failed, bindM, try_catch, await. simpl.
  intros (a & log' & -> & H). exists a. destruct a as [e | t]; simpl in H.
  - destruct H as [-> ->]. auto.
  - destruct (truthy_string t); simpl in H.
    + destruct H as (pa & log'' & -> & H). exists pa.
      destruct pa as [m | j]; simpl in H; destruct H as [-> ->]; auto.
    + destruct H as [-> ->]. auto.
Qed.

Lemma refresh_failed_throws {A : Type} (r : Response) log (res : exn + A) :
  reaches (refresh_failed P r) log res -> exists e, res = inl e.
Proof.
  intros H. apply refresh_failed_cases in H as (a & H).
  destruct a as [e0 | t0]; [destruct H as [_ ->]; eauto |].
  destruct (truthy_string t0); [| destruct H as [_ ->]; eauto].
  destruct H as (pa & _ & ->). eauto.
Qed.

(** The handler throws the same whatever result its caller expected. *)
Lemma refresh_failed_any {A B : Type} (r : Response) log e :
  reaches (refresh_failed P r (A := A)) log (inl e) ->
  reaches (refresh_failed P r (A := B)) log (inl e).
Proof.
  unfold refresh_failed, bindM, try_catch, await. simpl.
  intros (a & log' & -> & H). exists a, log'. split; [reflexivity |].
  destruct a as [e0 | t]; simpl in H |- *.
  - destruct H as [-> H]. injection H as <-. auto.
  - destruct (truthy_string t); simpl in H |- *.
    + destruct H as (pa & log'' & -> & H). exists pa, log''.
      split; [reflexivity |].
      destruct pa as [m | j]; simpl in H |- *;
        destruct H as [-> H]; injection H as <-; auto.
    + destruct H as [-> H]. injection H as <-. auto.
Qed.

(** What becomes of the response that is kept. *)
Lemma classify_cases (r : Response) log res :
  reaches (classify P r) log res ->
  if status r =? 204 then log = [] /\ res = inr DataUndefined
  else
    exists a : exn + string,
      match a with
      | inl e =>
          log = [EText r a]
          /\ res = inl (if instanceof_ApiError e then e
                        else invalid_response_error
                               (message_or e "Invalid JSON") (status r))
      | inr t =>
          if is_blank t then
            log = [EText r a]
            /\ res = if ok r then inr DataUndefined
                     else inl (empty_response_error (status r))
          else
            exists pa : string + json,
              log = [EText r a; EParse t pa]
              /\ res = match pa with
                       | inl m => inl (invalid_response_error m (status r))
                       | inr j =>
                           if ok r then inr (Payload j)
                           else inl (thrown_api_error P j unknown_error (status r))
                       end
      end.
Proof.
  unfold classify. destruct (status r =? 204); [intros [-> ->]; auto |].
  unfold bindM, try_catch, await. simpl.
  intros (a & log' & -> & H). exists a. destruct a as [e | t]; simpl in H.
  - destruct (instanceof_ApiError e); simpl in H; destruct H as [-> ->]; auto.
  - destruct (is_blank t); simpl in H.
    + destruct (ok r); simpl in H; destruct H as [-> ->]; auto.
    + destruct H as (pa & log'' & -> & H). exists pa.
      destruct pa as [m | j]; simpl in H.
      * destruct H as [-> ->]. auto.
      * destruct (ok r); simpl in H; destruct H as [-> ->]; auto.
Qed.

(** Every run of [request] either ends where reading the store throws,
    outside the [try], or fails before any response is kept, or follows one
    of the ways and ends as its last stage does, through the outer
    [catch]. *)
Lemma request_cases endpoint options log res :
  reaches (request P baseURL endpoint options) log res ->
  (exists e, log = [EStoreThrew e] /\ res = inl e)
  \/ (exists t, merged_headers options (token_or_empty t) = None
             /\ log = [EGetAuthToken t]
             /\ res = outer (inl (JsError (invalid_header_message P))))
  \/ (exists t h e, merged_headers options (token_or_empty t) = Some h
                    /\ log = [EGetAuthToken t;
                              EFetch (fetch_call (baseURL +:+ endpoint) options h)
                                (inl e)]
                    /\ res = outer (inl e))
  \/ (exists pre post last r,
         Way baseURL endpoint options pre last
         /\ log = pre ++ post
         /\ reaches (ending P last) post r
         /\ res = outer r).
Proof.
  unfold request. simpl. intros (read & log0 & -> & H).
  destruct read as [e0 | t]; simpl in H.
  { destruct H as [-> ->]. left. exists e0. auto. }
  right.
  apply reaches_outer in H as (r0 & H & ->).
  unfold bindM in H. apply reaches_bind in H as (a1 & l1 & l2 & -> & H1 & H2).
  apply makeRequest_cases in H1 as [(Hh & -> & ->) | (h & Hh & ->)].
  { simpl in H2. destruct H2 as [-> ->]. left. exists t. auto. }
  destruct a1 as [e | r]; simpl in H2.
  { destruct H2 as [-> ->]. right. left. exists t, h, e. auto. }
  right. right.
  apply reaches_bind in H2 as (a2 & l3 & l4 & -> & H3 & H4).
  destruct (status r =? 401) eqn:Hst.
  - apply Z.eqb_eq in Hst. unfold try_catch in H3.
    apply reaches_bind in H3 as (a3 & l5 & l6 & -> & H5 & H6).
    unfold await in H5. simpl in H5. destruct H5 as (x & l7 & -> & H5).
    destruct x as [e | newToken]; simpl in H5.
    + destruct H5 as [-> ->]. cbv beta iota in H6.
      destruct (refresh_failed_throws _ _ _ H6) as [e' ->].
      simpl in H4. destruct H4 as [-> ->].
      eexists _, l6, (Failed401 r), (inl e').
      split; [apply (way_refresh_failed _ _ _ t h r e); assumption |].
      rewrite app_nil_r. repeat split. apply (refresh_failed_any _ _ _ H6).
    + destruct (truthy_string newToken) eqn:Htok.
      * apply makeRequest_cases in H5 as [(Hh2 & -> & ->) | (h2 & Hh2 & ->)].
        -- cbv beta iota in H6.
           destruct (refresh_failed_throws _ _ _ H6) as [e' ->].
           simpl in H4. destruct H4 as [-> ->].
           eexists _, l6, (Failed401 r), (inl e').
           split; [apply (way_retry_headers _ _ _ t h r newToken); assumption |].
           rewrite app_nil_r. repeat split. apply (refresh_failed_any _ _ _ H6).
        -- destruct a3 as [e | r2]; cbv beta iota in H6.
           ++ destruct (refresh_failed_throws _ _ _ H6) as [e' ->].
              simpl in H4. destruct H4 as [-> ->].
              eexists _, l6, (Failed401 r), (inl e').
              split; [apply (way_retry_failed _ _ _ t h r newToken h2 e);
                      assumption |].
              rewrite app_nil_r. repeat split. apply (refresh_failed_any _ _ _ H6).
           ++ simpl in H6. destruct H6 as [-> ->]. cbv beta iota in H4.
              eexists _, l4, (Kept r2), r0.
              split; [apply (way_retried _ _ _ t h r newToken h2 r2);
                      assumption |].
              repeat split. exact H4.
      * simpl in H5. destruct H5 as [-> ->]. simpl in H6.
        destruct H6 as [-> ->]. cbv beta iota in H4.
        eexists _, l4, (Kept r), r0.
        split; [apply (way_no_token _ _ _ t h r newToken); assumption |].
        repeat split. exact H4.
  - apply Z.eqb_neq in Hst. simpl in H3. destruct H3 as [-> ->]. cbv beta iota in H4.
    eexists _, l4, (Kept r), r0.
    split; [apply (way_first _ _ _ t h r); assumption |].
    repeat split. exact H4.
Qed.

(** The run in which reading the store threw called nothing else. *)
Ltac store_thrown :=
  subst;
  solve [ discriminate
        | cbn; lia
        | repeat split; intros; discriminate
        | repeat split; cbn; try lia; intros; discriminate
        | simpl in *; contradiction
        | unfold kept in *;
          repeat match goal with
            | H : _ \/ _ |- _ => destruct H
            | H : exists _, _ |- _ => destruct H
            | H : _ /\ _ |- _ => destruct H
            end; discriminate ].

Lemma fetches_app l1 l2 : fetches (l1 ++ l2) = (fetches l1 + fetches l2)%nat.
Proof. unfold fetches. rewrite List.filter_app, length_app. reflexivity. Qed.

Lemma refreshes_app l1 l2 : refreshes (l1 ++ l2) = (refreshes l1 + refreshes l2)%nat.
Proof. unfold refreshes. rewrite List.filter_app, length_app. reflexivity. Qed.

Lemma fetch_calls_app l1 l2 : fetch_calls (l1 ++ l2) = fetch_calls l1 ++ fetch_calls l2.
Proof. unfold fetch_calls. apply flat_map_app. Qed.

(** The last stages call neither the transport nor the coordinator: they
    read the body once and parse it at most once. *)
Lemma classify_log (r : Response) log res :
  reaches (classify P r) log res ->
  log = [] \/ (exists a, log = [EText r a])
  \/ (exists t pa, log = [EText r (inr t); EParse t pa]).
Proof.
  intros H. apply classify_cases in H. destruct (status r =? 204).
  - left. apply H.
  - destruct H as (a & H). destruct a as [e | t].
    + right. left. exists (inl e). apply H.
    + destruct (is_blank t).
      * right. left. exists (inr t). apply H.
      * destruct H as (pa & -> & _). right. right. eauto.
Qed.

Lemma refresh_failed_log {A : Type} (r : Response) log (res : exn + A) :
  reaches (refresh_failed P r) log res ->
  (exists a, log = [EText r a])
  \/ (exists t pa, log = [EText r (inr t); EParse t pa]).
Proof.
  intros H. apply refresh_failed_cases in H as (a & H).
  destruct a as [e | t].
  - left. exists (inl e). apply H.
  - destruct (truthy_string t).
    + destruct H as (pa & -> & _). right. eauto.
    + left. exists (inr t). apply H.
Qed.

Lemma ending_log last log res :
  reaches (ending P last) log res ->
  log = [] \/ (exists r a, log = [EText r a])
  \/ (exists r t pa, log = [EText r (inr t); EParse t pa]).
Proof.
  destruct last as [r | r]; simpl; intros H.
  - apply classify_log in H as [-> | [(a & ->) | (t & pa & ->)]]; eauto 6.
  - apply refresh_failed_log in H as [(a & ->) | (t & pa & ->)]; eauto 6.
Qed.

Lemma ending_quiet last log res :
  reaches (ending P last) log res ->
  fetches log = 0%nat /\ refreshes log = 0%nat /\ fetch_calls log = [].
Proof.
  intros H.
  apply ending_log in H as [-> | [(r & a & ->) | (r & t & pa & ->)]];
    repeat split.
Qed.

Lemma way_counts endpoint options pre last :
  Way baseURL endpoint options pre last ->
  (refreshes pre <= 1)%nat /\ (fetches pre <= 2)%nat.
Proof. intros H. destruct H; cbn; lia. Qed.

(** Every call of [fetch] made by [request] carries the method and the body
    of [options] and the header set merged for some token. *)
Lemma way_fetch_calls endpoint options pre last c :
  Way baseURL endpoint options pre last -> In c (fetch_calls pre) ->
  exists tok h, merged_headers options tok = Some h
                /\ c = fetch_call (baseURL +:+ endpoint) options h.
Proof.
  intros H Hin. destruct H; cbn in Hin;
    repeat match goal with
      | H : _ \/ _ |- _ => destruct H
      | H : False |- _ => destruct H
      end; subst; eauto.
Qed.

Lemma request_fetch_calls endpoint options log res c :
  reaches (request P baseURL endpoint options) log res ->
  In c (fetch_calls log) ->
  exists tok h, merged_headers options tok = Some h
                /\ c = fetch_call (baseURL +:+ endpoint) options h.
Proof.
  intros H Hin.
  apply request_cases in H as [(x0 & Hx0 & Hy0) | H];
    [store_thrown |].
  destruct H
    as [(t & _ & -> & _) | [(t & h & e & Hh & -> & _)
                           | (pre & post & last & r & Hw & -> & Hr & _)]].
  - destruct Hin.
  - destruct Hin as [<- | []]. eauto.
  - rewrite fetch_calls_app in Hin.
    destruct (ending_quiet _ _ _ Hr) as (_ & _ & Hq). rewrite Hq, app_nil_r in Hin.
    eapply way_fetch_calls; eassumption.
Qed.

(** The response that is kept is classified, and the outer [catch] decides
    how [request] ends. *)
Lemma request_kept endpoint options log res r post :
  reaches (request P baseURL endpoint options) log res ->
  kept log r post ->
  exists r', reaches (classify P r) post r' /\ res = outer r'.
Proof.
  intros H Hk.
  apply request_cases in H as [(x0 & Hx0 & Hy0) | H];
    [store_thrown |].
  destruct H
    as [(t & _ & -> & _) | [(t & h & e & Hh & -> & _)
                           | (pre & post' & last & r' & Hw & -> & Hr & ->)]].
  - destruct Hk as [(? & ? & Hk & _) | [(? & ? & ? & Hk & _) | (? & ? & ? & ? & ? & Hk)]];
      discriminate.
  - destruct Hk as [(? & ? & Hk & _) | [(? & ? & ? & Hk & _) | (? & ? & ? & ? & ? & Hk)]];
      discriminate.
  - pose proof (ending_log _ _ _ Hr) as Hl.
    destruct Hw;
      destruct Hk as [(t' & c' & Hk & Hst) | [(t' & c' & tok' & Hk & Hst & Htok)
                                             | (t' & c1 & a1 & a401 & c2 & Hk)]];
      simpl in Hk; injection Hk as; subst;
      try congruence;
      try (destruct Hl as [Hl | [(? & ? & Hl) | (? & ? & ? & Hl)]]; discriminate);
      try (exists r'; split; [exact Hr | reflexivity]).
Qed.

Lemma thrown_api_error_null fallback st :
  thrown_api_error P JNull fallback st = JsError (null_read_message P).
Proof. reflexivity. Qed.

(** Unless the parsed body is [null], the error thrown is an [ApiError]
    carrying the status of the response. *)
Lemma thrown_api_error_object j fields st :
  j <> JNull ->
  exists c m, thrown_api_error P j (JObj fields) st = ApiError c m st.
Proof.
  intros Hj. unfold thrown_api_error.
  assert (Hor : forall error : value,
             exists c m,
               match get_prop P (js_or error (JV (JObj fields))) "code" with
               | inl type_error => type_error
               | inr c =>
                   match get_prop P (js_or error (JV (JObj fields))) "message" with
                   | inl type_error => type_error
                   | inr m => ApiError c m st
                   end
               end = ApiError c m st).
  { intros error. unfold js_or.
    destruct error as [| [| b | n | s | items | fs]]; simpl; eauto;
      match goal with
      | |- context [if ?b then _ else _] => destruct b; simpl; eauto
      end. }
  destruct j as [| b | n | s | items | fs];
    [contradiction | apply (Hor undefined) .. |].
  change (get_prop P (JV (JObj fs)) "error")
    with (@inr exn value (match obj_get fs "error" with
                          | Some j => JV j
                          | None => undefined
                          end)).
  cbv beta iota. apply Hor.
Qed.

Lemma ok_401 (r : Response) : status r = 401 -> ok r = false.
Proof. unfold ok. intros ->. reflexivity. Qed.

(** At most one retry.  In every run of [request] the refresh
    coordinator is invoked at most once and the transport at most twice;
    and when the retried request is also answered 401, nothing more is
    asked of the coordinator or of the transport and [request] ends with an
    [ApiError], whose status is 401 unless the body of that second response
    parsed to [null] (or reading it failed with an [ApiError]). *)
Lemma at_most_one_retry endpoint options log res :
  reaches (request P baseURL endpoint options) log res ->
  (refreshes log <= 1)%nat
  /\ (fetches log <= 2)%nat
  /\ forall t c1 a1 a401 c2 r2 post,
       log = EGetAuthToken t :: EFetch c1 a1 :: EHandle401 a401
               :: EFetch c2 (inr r2) :: post ->
       status r2 = 401 ->
       refreshes post = 0%nat
       /\ fetches post = 0%nat
       /\ exists e, res = inl e
                    /\ instanceof_ApiError e = true
                    /\ ((forall t', ~ In (EParse t' (inr JNull)) post) ->
                        (forall x, In (EText r2 (inl x)) post ->
                                   instanceof_ApiError x = false) ->
                        error_status e = Some 401).
Proof.
  intros H. split; [| split].
  - apply request_cases in H as [(x0 & Hx0 & Hy0) | H];
      [store_thrown |].
    destruct H
      as [(t & _ & -> & _) | [(t & h & e & Hh & -> & _)
                             | (pre & post & last & r & Hw & -> & Hr & _)]];
      [cbn; lia | cbn; lia |].
    rewrite refreshes_app. destruct (ending_quiet _ _ _ Hr) as (_ & -> & _).
    destruct (way_counts _ _ _ _ Hw). lia.
  - apply request_cases in H as [(x0 & Hx0 & Hy0) | H];
      [store_thrown |].
    destruct H
      as [(t & _ & -> & _) | [(t & h & e & Hh & -> & _)
                             | (pre & post & last & r & Hw & -> & Hr & _)]];
      [cbn; lia | cbn; lia |].
    rewrite fetches_app. destruct (ending_quiet _ _ _ Hr) as (-> & _ & _).
    destruct (way_counts _ _ _ _ Hw). lia.
  - intros t c1 a1 a401 c2 r2 post Hlog Hst.
    destruct (request_kept _ _ _ _ r2 post H) as (r' & Hc & ->).
    { right. right. exists t, c1, a1, a401, c2. exact Hlog. }
    destruct (ending_quiet (Kept r2) _ _ Hc) as (Hf & Hr & _).
    split; [exact Hr |]. split; [exact Hf |].
    apply classify_cases in Hc. rewrite Hst in Hc. simpl in Hc.
    rewrite (ok_401 _ Hst) in Hc.
    destruct Hc as (a & Hc). destruct a as [x | txt].
    + destruct Hc as [-> ->]. destruct (instanceof_ApiError x) eqn:Hx.
      * exists x. simpl. rewrite Hx. repeat split.
        intros _ Htext. specialize (Htext x (or_introl eq_refl)). congruence.
      * eexists. simpl. repeat split.
    + destruct (is_blank txt).
      * destruct Hc as [-> ->]. eexists. simpl. repeat split.
      * destruct Hc as (pa & -> & ->). destruct pa as [m | j].
        -- eexists. simpl. repeat split.
        -- destruct (json_null_dec j) as [-> | Hj].
           ++ rewrite thrown_api_error_null. eexists. simpl. repeat split.
              intros Hnull _. exfalso. apply (Hnull txt). simpl. auto.
           ++ destruct (thrown_api_error_object j
                          [("code", JStr "UNKNOWN_ERROR");
                           ("message", JStr "An error occurred")] 401 Hj)
                as (c & m & Heq).
              unfold unknown_error. rewrite Heq. eexists. simpl. repeat split.
Qed.

(** C5. A second 401 is not always surfaced as it is.  When the retried
    request is answered 401 too and the body of that response is the JSON
    text [null], no further refresh and no further request is made, but
    reading [data.error] (line 159) throws a [TypeError], which the outer
    [catch] turns into NETWORK_ERROR with status 0: the caller does not
    receive the second 401. *)
Theorem second_401_null_body endpoint options t c1 a1 a401 c2 r2 txt res :
  reaches (request P baseURL endpoint options)
    (EGetAuthToken t :: EFetch c1 a1 :: EHandle401 a401 :: EFetch c2 (inr r2)
       :: [EText r2 (inr txt); EParse txt (inr JNull)]) res ->
  status r2 = 401 ->
  res = inl (ApiError (str "NETWORK_ERROR") (str (null_read_message P)) 0)
  /\ error_status (ApiError (str "NETWORK_ERROR") (str (null_read_message P)) 0)
     <> Some 401.
Proof.
  intros H Hst. split; [| discriminate].
  destruct (request_kept _ _ _ _ r2 [EText r2 (inr txt); EParse txt (inr JNull)] H)
    as (r' & Hc & ->).
  { right. right. exists t, c1, a1, a401, c2. reflexivity. }
  apply classify_cases in Hc. rewrite Hst in Hc. simpl in Hc.
  rewrite (ok_401 _ Hst) in Hc.
  destruct Hc as (a & Hc). destruct a as [x | txt'].
  - destruct Hc as [Hc _]. discriminate.
  - destruct (is_blank txt'); [destruct Hc; discriminate |].
    destruct Hc as (pa & Hl & ->). injection Hl as ? ?; subst.
    rewrite thrown_api_error_null. reflexivity.
Qed.


(** Unless reading the store throws, [request] reads the token and then,
    when the headers merge, calls [fetch] with the URL, the method and the
    body of [options]. *)
Lemma request_starts endpoint options log res :
  reaches (request P baseURL endpoint options) log res ->
  (exists e, log = [EStoreThrew e])
  \/ (exists t rest,
         log = EGetAuthToken t :: rest
         /\ forall h, merged_headers options (token_or_empty t) = Some h ->
                      exists a post,
                        rest = EFetch (fetch_call (baseURL +:+ endpoint) options h) a
                                 :: post).
Proof.
  intros H.
  apply request_cases in H as [(x0 & Hx0 & Hy0) | H]; [left; eauto |].
  right.
  destruct H
    as [(t & Hh & -> & _) | [(t & h & e & Hh & -> & _)
                            | (pre & post & last & r & Hw & -> & Hr & _)]].
  - exists t, []. split; [reflexivity |]. intros h Hh'. congruence.
  - exists t. eexists. split; [reflexivity |]. intros h' Hh'.
    assert (h' = h) by congruence. subst h'. eauto.
  - destruct Hw;
      (exists t; eexists; split; [reflexivity |]; intros h' Hh';
       assert (h' = h) by congruence; subst h'; simpl; eauto).
Qed.

Lemma merged_headers_with_body options m (b : value) tok :
  merged_headers (with_body P options m b) tok = merged_headers options tok.
Proof. reflexivity. Qed.

(** C10. Bodies of [post], [put] and [patch].  Each of the three wrappers
    reads the token and, the headers merging, calls [fetch] at the base URL
    followed by the endpoint, with the method of the verb.  Every call it
    makes to [fetch] has that method, has no body at all when the body
    argument is falsy, whatever [options] says, and has the JSON text of
    the argument as its body when the argument is truthy; so [undefined],
    [null], [0], [false] and the empty string are never sent. *)
Theorem falsy_body_is_dropped endpoint (b : value) options verb log res :
  (verb = "POST" /\ reaches (post P baseURL endpoint b options) log res)
  \/ (verb = "PUT" /\ reaches (put P baseURL endpoint b options) log res)
  \/ (verb = "PATCH" /\ reaches (patch P baseURL endpoint b options) log res) ->
  ((exists e, log = [EStoreThrew e])
   \/ (exists t rest,
          log = EGetAuthToken t :: rest
          /\ forall h, merged_headers options (token_or_empty t) = Some h ->
                       exists c a rest',
                         rest = EFetch c a :: rest'
                         /\ f_url c = baseURL +:+ endpoint
                         /\ f_headers c = h))
  /\ forall c, In c (fetch_calls log) ->
       f_method c = Some verb
       /\ (truthy b = false -> f_body c = None)
       /\ (forall j, b = JV j -> truthy b = true ->
                     f_body c = Some (JSON_stringify P j))
       /\ (b = undefined \/ b = JV JNull \/ b = JV (JNum 0)
           \/ b = JV (JBool false) \/ b = JV (JStr "") ->
           f_body c = None).
Proof.
  intros H.
  assert (Hrun : reaches (request P baseURL endpoint (with_body P options verb b))
                   log res).
  { destruct H as [[-> H] | [[-> H] | [-> H]]]; exact H. }
  clear H. split.
  - destruct (request_starts _ _ _ _ Hrun) as [He | (t & rest & -> & Hsend)];
      [left; exact He |].
    right. exists t, rest. split; [reflexivity |]. intros h Hh.
    rewrite <- (merged_headers_with_body options verb b) in Hh.
    destruct (Hsend h Hh) as (a & rest' & ->).
    eexists _, a, rest'. repeat split.
  - intros c Hin.
    destruct (request_fetch_calls _ _ _ _ _ Hrun Hin) as (tok & h & _ & ->).
    simpl. split; [reflexivity |]. split; [| split].
    + intros ->. reflexivity.
    + intros j -> ->. reflexivity.
    + intros [-> | [-> | [-> | [-> | ->]]]]; reflexivity.
Qed.

(** When the coordinator throws, the handler of lines 115-126 runs on the
    first response. *)
Lemma request_refresh_failed endpoint options t c r e post res :
  reaches (request P baseURL endpoint options)
    (EGetAuthToken t :: EFetch c (inr r) :: EHandle401 (inl e) :: post) res ->
  status r = 401
  /\ exists r' : exn + ApiResponse,
       reaches (refresh_failed P r) post r' /\ res = outer r'.
Proof.
  intros H.
  apply request_cases in H as [(x0 & Hx0 & Hy0) | H];
    [store_thrown |].
  destruct H
    as [(t' & _ & Hl & _) | [(t' & h & e' & Hh & Hl & _)
                            | (pre & post' & last & r' & Hw & Hl & Hr & ->)]];
    try discriminate.
  pose proof (ending_log _ _ _ Hr) as Hlog.
  destruct Hw; simpl in Hl; injection Hl as; subst;
    try (destruct Hlog as [Hlog | [(? & ? & Hlog) | (? & ? & ? & Hlog)]];
         discriminate).
  split; [assumption |]. exists r'. auto.
Qed.

(** The refresh failed: the request is not retried, and unless the body of
    the 401 response parses to [null] the caller receives an [ApiError] with
    the status of that response, the synthesized UNAUTHORIZED one when the
    body cannot be read, is empty or does not parse. *)
Lemma refresh_failure_surfaces_401 endpoint options t c r e post res :
  reaches (request P baseURL endpoint options)
    (EGetAuthToken t :: EFetch c (inr r) :: EHandle401 (inl e) :: post) res ->
  fetches post = 0%nat
  /\ refreshes post = 0%nat
  /\ (forall x, post = [EText r (inl x)] ->
                res = inl (unauthorized_error (status r)))
  /\ (post = [EText r (inr "")] -> res = inl (unauthorized_error (status r)))
  /\ (forall txt m, post = [EText r (inr txt); EParse txt (inl m)] ->
                    res = inl (unauthorized_error (status r)))
  /\ (forall txt j, post = [EText r (inr txt); EParse txt (inr j)] ->
                    j <> JNull ->
                    exists code message,
                      res = inl (ApiError code message (status r))
                      /\ thrown_api_error P j unauthorized (status r)
                         = ApiError code message (status r)).
Proof.
  intros H. apply request_refresh_failed in H as (Hst & r' & Hr & ->).
  destruct (ending_quiet (Failed401 r) _ _ Hr) as (Hf & Hq & _).
  split; [exact Hf |]. split; [exact Hq |].
  apply refresh_failed_cases in Hr as (a & Hr).
  split; [| split; [| split]].
  - intros x ->. destruct a as [x' | txt]; [destruct Hr as [_ ->]; reflexivity |].
    destruct (truthy_string txt); [destruct Hr as (? & ? & _) | destruct Hr];
      discriminate.
  - intros ->. destruct a as [x' | txt]; [destruct Hr; discriminate |].
    destruct (truthy_string txt) eqn:Ht.
    + destruct Hr as (? & ? & _). discriminate.
    + destruct Hr as [_ ->]. reflexivity.
  - intros txt m ->. destruct a as [x' | txt']; [destruct Hr; discriminate |].
    destruct (truthy_string txt').
    + destruct Hr as (pa & Hl & ->). injection Hl as ? ?; subst. reflexivity.
    + destruct Hr. discriminate.
  - intros txt j -> Hj. destruct a as [x' | txt']; [destruct Hr; discriminate |].
    destruct (truthy_string txt').
    + destruct Hr as (pa & Hl & ->). injection Hl as ? ?; subst.
      destruct (thrown_api_error_object j
                  [("code", JStr "UNAUTHORIZED"); ("message", JStr "Unauthorized")]
                  (status r) Hj) as (code & message & Heq).
      exists code, message. unfold unauthorized. rewrite Heq. auto.
    + destruct Hr. discriminate.
Qed.

(** ** The merged header set *)

Lemma filter_none {A : Type} (p : A -> bool) (l : list A) :
  existsb p l = false -> List.filter p l = [].
Proof.
  induction l as [| x l IH]; simpl; [reflexivity |].
  destruct (p x); simpl; [discriminate | exact IH].
Qed.

Lemma filter_filter_out {A : Type} (p : A -> bool) (l : list A) :
  List.filter p (List.filter (fun x => negb (p x)) l) = [].
Proof.
  induction l as [| x l IH]; simpl; [reflexivity |].
  destruct (p x) eqn:Hp; simpl; [exact IH |]. rewrite Hp. exact IH.
Qed.

Lemma filter_filter_other {A : Type} (p q : A -> bool) (l : list A) :
  (forall x, q x = true -> p x = false) ->
  List.filter q (List.filter (fun x => negb (p x)) l) = List.filter q l.
Proof.
  intros Hpq. induction l as [| x l IH]; simpl; [reflexivity |].
  destruct (p x) eqn:Hp; simpl.
  - destruct (q x) eqn:Hq; [| exact IH]. rewrite (Hpq x Hq) in Hp. discriminate.
  - rewrite IH. reflexivity.
Qed.

Lemma name_is_other name other kv :
  lower other <> lower name -> name_is other kv = true -> name_is name kv = false.
Proof.
  unfold name_is. intros Hne Ho. apply String.eqb_eq in Ho.
  apply String.eqb_neq. congruence.
Qed.

Lemma replace_first_same (h : Headers) name v :
  existsb (name_is name) h = true ->
  List.filter (name_is name) (replace_first h name v) = [(lower name, v)].
Proof.
  induction h as [| kv h IH]; simpl; [discriminate |].
  destruct (name_is name kv) eqn:Hkv; simpl.
  - intros _. unfold name_is at 1. simpl.
    unfold name_is in Hkv. apply String.eqb_eq in Hkv. rewrite Hkv.
    rewrite String.eqb_refl, filter_filter_out. reflexivity.
  - intros Hex. rewrite Hkv. apply IH, Hex.
Qed.

Lemma replace_first_other (h : Headers) name other v :
  lower other <> lower name ->
  List.filter (name_is other) (replace_first h name v)
  = List.filter (name_is other) h.
Proof.
  intros Hne. induction h as [| kv h IH]; simpl; [reflexivity |].
  destruct (name_is name kv) eqn:Hkv; simpl.
  - assert (Ho : name_is other kv = false).
    { destruct (name_is other kv) eqn:Ho; [| reflexivity].
      rewrite (name_is_other _ _ _ Hne Ho) in Hkv. discriminate. }
    rewrite Ho.
    assert (Ho' : name_is other (fst kv, v) = false) by exact Ho.
    rewrite Ho'. apply filter_filter_other.
    intros x. apply name_is_other, Hne.
  - rewrite IH. reflexivity.
Qed.

(** [set] then [get]. *)
Lemma Headers_set_get (h h' : Headers) name v :
  Headers_set h name v = Some h' ->
  Headers_get h' name = Some (normalize v)
  /\ forall other, lower other <> lower name ->
                   Headers_get h' other = Headers_get h other.
Proof.
  unfold Headers_set.
  destruct (valid_name name && valid_value (normalize v)); [| discriminate].
  intros [= <-]. unfold Headers_get.
  destruct (existsb (name_is name) h) eqn:Hex.
  - split.
    + rewrite replace_first_same by exact Hex. reflexivity.
    + intros other Hne. rewrite replace_first_other by exact Hne. reflexivity.
  - split.
    + rewrite List.filter_app, (filter_none _ _ Hex). simpl.
      unfold name_is at 1. simpl. rewrite String.eqb_refl. reflexivity.
    + intros other Hne. rewrite List.filter_app. simpl.
      assert (Ho : name_is other (lower name, normalize v) = false).
      { unfold name_is. simpl. apply String.eqb_neq. congruence. }
      rewrite Ho, app_nil_r. reflexivity.
Qed.

Lemma Headers_new_fold record (h0 base : Headers) :
  fold_left
    (fun acc kv =>
       match acc with
       | Some h => Headers_append h (fst kv) (snd kv)
       | None => None
       end)
    record (Some h0) = Some base ->
  base = h0 ++ map (fun kv => (lower (fst kv), normalize (snd kv))) record.
Proof.
  revert h0. induction record as [| kv record IH]; intros h0; simpl.
  - intros [= <-]. rewrite app_nil_r. reflexivity.
  - unfold Headers_append at 2.
    destruct (valid_name (fst kv) && valid_value (normalize (snd kv))).
    + intros H. apply IH in H. rewrite H, <- app_assoc. reflexivity.
    + intros H. exfalso. clear IH. induction record as [| x record IH];
        simpl in H; [discriminate | auto].
Qed.

(** A header set built from a record holds its entries in order, names
    lower-cased and values normalised. *)
Lemma Headers_new_map record base :
  Headers_new record = Some base ->
  base = map (fun kv => (lower (fst kv), normalize (snd kv))) record.
Proof. intros H. apply Headers_new_fold in H. exact H. Qed.

Lemma obj_set_fresh {A : Type} (o : list (string * A)) k v :
  ~ In k (map fst o) -> obj_set o k v = o ++ [(k, v)].
Proof.
  induction o as [| [k' v'] o IH]; simpl; [reflexivity |].
  intros Hk. destruct (String.eqb_spec k' k) as [-> | _].
  - exfalso. apply Hk. auto.
  - rewrite IH by tauto. reflexivity.
Qed.

Lemma obj_get_absent {A : Type} (o : list (string * A)) k :
  ~ In k (map fst o) -> obj_get o k = None.
Proof.
  induction o as [| [k' v'] o IH]; simpl; [reflexivity |].
  intros Hk. destruct (String.eqb_spec k' k) as [-> | _].
  - exfalso. apply Hk. auto.
  - apply IH. tauto.
Qed.

(** Spreading an object with distinct keys over a one-property object: the
    property keeps the first place and takes the caller's value, if any. *)
Lemma obj_spread_over_default {A : Type} (hs acc : list (string * A)) k0 x :
  NoDup (map fst hs) ->
  (forall k, In k (map fst acc) -> ~ In k (map fst hs)) ->
  ~ In k0 (map fst acc) ->
  obj_spread ((k0, x) :: acc) hs
  = (k0, match obj_get hs k0 with Some v => v | None => x end)
      :: acc ++ List.filter (fun kv => negb (String.eqb (fst kv) k0)) hs.
Proof.
  unfold obj_spread. revert acc x.
  induction hs as [| [k v] hs IH]; intros acc x Hnd Hdis Hk0; simpl.
  - rewrite app_nil_r. reflexivity.
  - inversion Hnd as [| ? ? Hk Hnd']; subst. rewrite list_elem_of_In in Hk.
    destruct (String.eqb_spec k0 k) as [<- | Hne].
    + rewrite String.eqb_refl. simpl. rewrite IH; [| exact Hnd' | | exact Hk0].
      * rewrite (obj_get_absent hs k0 Hk). reflexivity.
      * intros k' Hin Hin'. apply (Hdis k' Hin). simpl. auto.
    + assert (Hkk : String.eqb k k0 = false).
      { apply String.eqb_neq. congruence. }
      rewrite Hkk. simpl.
      rewrite obj_set_fresh.
      * rewrite IH; [| exact Hnd' | |].
        -- rewrite <- app_assoc. reflexivity.
        -- intros k' Hin Hin'. rewrite map_app, in_app_iff in Hin. simpl in Hin.
           destruct Hin as [Hin | [<- | []]]; [| contradiction].
           apply (Hdis k' Hin). simpl. auto.
        -- rewrite map_app, in_app_iff. simpl. intros [Hin | [Heq | []]];
             [contradiction | congruence].
      * intros Hin. apply (Hdis k Hin). simpl. auto.
Qed.

Lemma obj_get_in_nodup {A : Type} (o : list (string * A)) k v :
  NoDup (map fst o) -> In (k, v) o -> obj_get o k = Some v.
Proof.
  induction o as [| [k' v'] o IH]; simpl; [intros _ [] |].
  intros Hnd Hin. inversion Hnd as [| ? ? Hk Hnd']; subst.
  rewrite list_elem_of_In in Hk.
  destruct Hin as [[= -> ->] | Hin].
  - rewrite String.eqb_refl. reflexivity.
  - destruct (String.eqb_spec k' k) as [-> | _]; [| apply IH; assumption].
    exfalso. apply Hk. apply (in_map fst _ _ Hin).
Qed.

Lemma filter_map_none {A B : Type} (p : B -> bool) (g : A -> B) (l : list A) :
  (forall x, In x l -> p (g x) = false) -> List.filter p (map g l) = [].
Proof.
  induction l as [| x l IH]; simpl; [reflexivity |].
  intros H. rewrite (H x) by auto. apply IH. intros y Hy. apply H. auto.
Qed.

(** The Content-Type of the merged set is the caller's when the caller
    names it so, the default otherwise, as long as the caller gives it
    under no other spelling. *)
Lemma content_type_of_record hs x base :
  NoDup (map fst hs) ->
  (forall k v, In (k, v) hs -> lower k = "content-type" -> k = "Content-Type") ->
  Headers_new (obj_spread [("Content-Type", x)] hs) = Some base ->
  Headers_get base "Content-Type"
  = Some (normalize (match obj_get hs "Content-Type" with
                     | Some v => v
                     | None => x
                     end)).
Proof.
  intros Hnd Hcase Hnew. apply Headers_new_map in Hnew.
  rewrite (obj_spread_over_default hs [] "Content-Type" x Hnd) in Hnew;
    [| intros k [] | intros []].
  subst base. unfold Headers_get. simpl.
  unfold name_is at 1. simpl.
  rewrite filter_map_none; [reflexivity |].
  intros [k v] Hin. apply filter_In in Hin as [Hin Hk]. simpl in Hk.
  unfold name_is. simpl. apply String.eqb_neq. intros Hl.
  apply negb_true_iff, String.eqb_neq in Hk. apply Hk.
  apply (Hcase k v Hin Hl).
Qed.

Lemma filter_map_filter {A B : Type} (p : B -> bool) (q : A -> bool)
  (g : A -> B) (l : list A) :
  (forall x, p (g x) = true -> q x = true) ->
  List.filter p (map g (List.filter q l)) = List.filter p (map g l).
Proof.
  intros Hpq. induction l as [| x l IH]; simpl; [reflexivity |].
  destruct (q x) eqn:Hq; simpl; [rewrite IH; reflexivity |].
  destruct (p (g x)) eqn:Hp; [| exact IH].
  rewrite (Hpq x Hp) in Hq. discriminate.
Qed.

(** Apart from the Content-Type, the set built at lines 52-55 says what the
    properties spread from the caller's headers say. *)
Lemma base_of_caller hs x base name :
  NoDup (map fst hs) ->
  Headers_new (obj_spread [("Content-Type", x)] hs) = Some base ->
  lower name <> "content-type" ->
  Headers_get base name = caller_header hs name.
Proof.
  intros Hnd Hnew Hne. apply Headers_new_map in Hnew.
  rewrite (obj_spread_over_default hs [] "Content-Type" x Hnd) in Hnew;
    [| intros k [] | intros []].
  subst base. unfold caller_header, Headers_get.
  assert (Hfirst : forall k v, lower k = "content-type" ->
                               name_is name (lower k, v) = false).
  { intros k v Hk. unfold name_is. cbn [fst]. apply String.eqb_neq. congruence. }
  cbn [map app List.filter fst snd]. rewrite Hfirst by reflexivity.
  rewrite filter_map_filter; [reflexivity |].
  intros [k v] Hk. cbn [fst snd] in *. apply negb_true_iff, String.eqb_neq.
  intros ->. rewrite Hfirst in Hk by reflexivity. discriminate.
Qed.

Lemma first_fetch endpoint options t c a post res :
  reaches (request P baseURL endpoint options)
    (EGetAuthToken t :: EFetch c a :: post) res ->
  merged_headers options (token_or_empty t) = Some (f_headers c).
Proof.
  intros H.
  apply request_cases in H as [(x0 & Hx0 & Hy0) | H];
    [store_thrown |].
  destruct H
    as [(t' & _ & Hl & _) | [(t' & h & e' & Hh & Hl & _)
                            | (pre & post' & last & r' & Hw & Hl & _ & _)]].
  - discriminate.
  - injection Hl as -> -> _ _. exact Hh.
  - destruct Hw; simpl in Hl; injection Hl as; subst; assumption.
Qed.

Lemma second_fetch endpoint options t c1 a1 newToken c2 a2 post res :
  reaches (request P baseURL endpoint options)
    (EGetAuthToken t :: EFetch c1 a1 :: EHandle401 (inr newToken)
       :: EFetch c2 a2 :: post) res ->
  merged_headers options newToken = Some (f_headers c2).
Proof.
  intros H.
  apply request_cases in H as [(x0 & Hx0 & Hy0) | H];
    [store_thrown |].
  destruct H
    as [(t' & _ & Hl & _) | [(t' & h & e' & _ & Hl & _)
                            | (pre & post' & last & r' & Hw & Hl & Hr & _)]];
    try discriminate.
  pose proof (ending_log _ _ _ Hr) as Hlog.
  destruct Hw; simpl in Hl; injection Hl as; subst;
    try (destruct Hlog as [Hlog | [(? & ? & Hlog) | (? & ? & ? & Hlog)]];
         discriminate);
    assumption.
Qed.

(** Every call of [fetch] is the first one, made for the stored token, or
    the second, made for the token the coordinator returned. *)
Lemma fetch_calls_sent_for endpoint options log res c :
  reaches (request P baseURL endpoint options) log res ->
  In c (fetch_calls log) -> exists authToken, sent_for log authToken c.
Proof.
  intros H Hin.
  apply request_cases in H as [(x0 & Hx0 & Hy0) | H];
    [store_thrown |].
  destruct H
    as [(t & _ & -> & _) | [(t & h & e & Hh & -> & _)
                           | (pre & post & last & r & Hw & -> & Hr & _)]].
  - destruct Hin.
  - destruct Hin as [<- | []]. exists (token_or_empty t). left.
    exists t, (inl e), []. auto.
  - rewrite fetch_calls_app in Hin.
    destruct (ending_quiet _ _ _ Hr) as (_ & _ & Hq). rewrite Hq, app_nil_r in Hin.
    destruct Hw; cbn in Hin;
      repeat match goal with
        | H : _ \/ _ |- _ => destruct H
        | H : False |- _ => destruct H
        end; subst;
      try (exists (token_or_empty t); left; simpl; eexists t, _, _;
           split; reflexivity);
      try (exists newToken; right; simpl; eexists t, _, _, _, _; reflexivity).
Qed.

(** C8, amended.  Every call of [fetch] made by [request] is the first,
    made for the token read from the store (the empty string when there is
    none), or the second, made for the token the coordinator returned; and
    the call made for a token carries the header set merged for that token.
    With [base] the set built from the default Content-Type and the
    properties spread from the caller's headers over it (those of a plain
    object; none for a [Headers] instance; index keys for an array of
    pairs): a non-empty Authorization value in [base] stays as it is and
    nothing is injected; nothing is injected without a token; with a token
    and no Authorization value in [base], or an empty one, Authorization
    becomes the Bearer token; no other header is touched.  Apart from the
    Content-Type, [base] says what those properties say.  A Content-Type
    given under that very name, and under no other spelling, replaces the
    default, which stands when none is given. *)
Theorem header_merge endpoint options log res :
  reaches (request P baseURL endpoint options) log res ->
  (forall c, In c (fetch_calls log) -> exists authToken, sent_for log authToken c)
  /\ forall authToken c,
       sent_for log authToken c ->
       exists base,
         merged_headers options authToken = Some (f_headers c)
         /\ Headers_new (header_record options) = Some base
         /\ (forall a, Headers_get base "Authorization" = Some a -> a <> "" ->
                       f_headers c = base)
         /\ (authToken = "" -> f_headers c = base)
         /\ (authToken <> "" ->
             Headers_get base "Authorization" = None
             \/ Headers_get base "Authorization" = Some "" ->
             Headers_get (f_headers c) "Authorization"
             = Some (normalize ("Bearer " +:+ authToken)))
         /\ (forall name, lower name <> "authorization" ->
                          Headers_get (f_headers c) name = Headers_get base name)
         /\ (NoDup (map fst (caller_headers options)) ->
             forall name, lower name <> "content-type" ->
                          Headers_get base name
                          = caller_header (caller_headers options) name)
         /\ (NoDup (map fst (caller_headers options)) ->
             (forall k v, In (k, v) (caller_headers options) ->
                          lower k = "content-type" -> k = "Content-Type") ->
             (forall v, In ("Content-Type", v) (caller_headers options) ->
                        Headers_get (f_headers c) "Content-Type"
                        = Some (normalize v))
             /\ ((forall v, ~ In ("Content-Type", v) (caller_headers options)) ->
                 Headers_get (f_headers c) "Content-Type"
                 = Some "application/json")).
Proof.
  intros H. split; [intros c; apply (fetch_calls_sent_for _ _ _ _ _ H) |].
  intros authToken c Hsent.
  assert (Hm : merged_headers options authToken = Some (f_headers c)).
  { destruct Hsent as [(t & a & post & -> & ->)
                      | (t & c1 & a1 & a2 & post & ->)].
    - apply (first_fetch _ _ _ _ _ _ _ H).
    - apply (second_fetch _ _ _ _ _ _ _ _ _ _ H). }
  clear H Hsent. set (h := f_headers c) in *. clearbody h.
  unfold merged_headers in Hm.
  destruct (Headers_new (header_record options)) as [base |] eqn:Hnew;
    [| discriminate].
  exists base.
  assert (Hother : forall name, lower name <> "authorization" ->
                                Headers_get h name = Headers_get base name).
  { intros name Hne.
    destruct (truthy_string authToken
              && negb match Headers_get base "Authorization" with
                      | Some v => truthy_string v
                      | None => false
                      end).
    - apply (Headers_set_get _ _ _ _ Hm). exact Hne.
    - injection Hm as <-. reflexivity. }
  split; [unfold merged_headers; rewrite Hnew; exact Hm |].
  split; [reflexivity |].
  split; [| split; [| split; [| split; [exact Hother | split]]]].
  - intros a Ha Hne. rewrite Ha in Hm.
    assert (Ht : truthy_string a = true).
    { unfold truthy_string. apply negb_true_iff, String.eqb_neq, Hne. }
    rewrite Ht, andb_false_r in Hm. injection Hm as <-. reflexivity.
  - intros ->. simpl in Hm. injection Hm as <-. reflexivity.
  - intros Htok Hauth.
    assert (Ht : truthy_string authToken = true).
    { unfold truthy_string. apply negb_true_iff, String.eqb_neq, Htok. }
    rewrite Ht in Hm.
    destruct Hauth as [Ha | Ha]; rewrite Ha in Hm; simpl in Hm;
      apply (Headers_set_get _ _ _ _ Hm).
  - intros Hnd name Hne. unfold header_record in Hnew.
    apply (base_of_caller _ _ _ _ Hnd Hnew Hne).
  - intros Hnd Hcase.
    assert (Hct : lower "Content-Type" <> "authorization") by discriminate.
    rewrite (Hother "Content-Type" Hct).
    unfold header_record in Hnew.
    rewrite (content_type_of_record _ _ _ Hnd Hcase Hnew).
    split.
    + intros v Hv. rewrite (obj_get_in_nodup _ _ _ Hnd Hv). reflexivity.
    + intros Hnone. rewrite obj_get_absent; [reflexivity |].
      intros Hk. apply in_map_iff in Hk as ([k v] & Hk & Hkv). simpl in Hk.
      subst k. apply (Hnone v Hkv).
Qed.

(** ** Further properties of [request] *)

Lemma outer_api_error {A : Type} (r : exn + A) e :
  outer r = inl e -> instanceof_ApiError e = true.
Proof.
  destruct r as [e0 | a]; simpl; [| discriminate].
  destruct (instanceof_ApiError e0) eqn:He; intros [= <-]; [exact He | reflexivity].
Qed.

(** X8. Past the read of the store, [request] only ever fails with an
    [ApiError].  The token is read at line 49, before the [try] of line 104:
    when that read throws, nothing else is called and the caller receives
    what was thrown, as it is.  In every other run, whatever the transport,
    the parser and the coordinator answer or throw, an error that reaches
    the caller is an instance of [ApiError]. *)
Theorem request_fails_with_api_error endpoint options log res :
  reaches (request P baseURL endpoint options) log res ->
  (forall x post, log = EStoreThrew x :: post -> post = [] /\ res = inl x)
  /\ (forall e, res = inl e ->
                instanceof_ApiError e = true \/ log = [EStoreThrew e])
  /\ (forall t post e, log = EGetAuthToken t :: post -> res = inl e ->
                       instanceof_ApiError e = true).
Proof.
  intros H.
  apply request_cases in H as [(x0 & -> & ->) | H].
  { split; [| split].
    - intros x post [= -> <-]. auto.
    - intros e [= <-]. right. reflexivity.
    - intros t post e Hl. discriminate. }
  assert (Hapi : forall e, res = inl e -> instanceof_ApiError e = true).
  { intros e ->.
    destruct H
      as [(t & _ & _ & Hr) | [(t & h & e' & _ & _ & Hr)
                             | (pre & post & last & r & _ & _ & _ & Hr)]];
      symmetry in Hr; apply outer_api_error in Hr; exact Hr. }
  split; [| split].
  - intros x post Hl. exfalso.
    destruct H
      as [(t & _ & -> & _) | [(t & h & e' & _ & -> & _)
                             | (pre & post' & last & r & Hw & -> & _ & _)]];
      try discriminate.
    destruct Hw; discriminate.
  - intros e He. left. apply (Hapi e He).
  - intros t post e _ He. apply (Hapi e He).
Qed.

(** X9. A transport failure on the first attempt.  When [fetch] rejects,
    nothing more is called (no refresh, no retry, no body read) and the
    caller receives NETWORK_ERROR with status 0, carrying the message of the
    error thrown, or "Network request failed" when what was thrown is not
    an [Error]. *)
Theorem transport_failure_is_network_error endpoint options t c e post res :
  reaches (request P baseURL endpoint options)
    (EGetAuthToken t :: EFetch c (inl e) :: post) res ->
  post = []
  /\ (forall m, e = JsError m ->
                res = inl (ApiError (str "NETWORK_ERROR") (str m) 0))
  /\ (forall v, e = Thrown v ->
                res = inl (ApiError (str "NETWORK_ERROR")
                             (str "Network request failed") 0)).
Proof.
  intros H.
  apply request_cases in H as [(x0 & Hx0 & Hy0) | H];
    [store_thrown |].
  destruct H
    as [(t' & _ & Hl & _) | [(t' & h & e' & _ & Hl & ->)
                            | (pre & post' & last & r & Hw & Hl & _ & _)]].
  - discriminate.
  - injection Hl as -> -> -> ->. split; [reflexivity |].
    split; [intros m -> | intros v ->]; reflexivity.
  - destruct Hw; simpl in Hl; discriminate.
Qed.




(** X11. A body that cannot be read as JSON.  For the response that is
    kept, whatever its status: when the text is not empty and
    [JSON.parse] throws, or when reading the text fails, nothing more is
    called and the caller receives INVALID_RESPONSE at the status of the
    response, the message ending with that of the error thrown, or with
    "Invalid JSON" when what was thrown is not an [Error]. *)
Theorem unparsable_body_is_invalid_response endpoint options log res r post :
  reaches (request P baseURL endpoint options) log res ->
  kept log r post ->
  (forall t m post',
      post = EText r (inr t) :: EParse t (inl m) :: post' ->
      post' = []
      /\ res = inl (ApiError (str "INVALID_RESPONSE")
                      (str ("Failed to parse server response: " +:+ m))
                      (status r)))
  /\ (forall m post',
         post = EText r (inl (JsError m)) :: post' ->
         post' = []
         /\ res = inl (ApiError (str "INVALID_RESPONSE")
                         (str ("Failed to parse server response: " +:+ m))
                         (status r)))
  /\ (forall v post',
         post = EText r (inl (Thrown v)) :: post' ->
         post' = []
         /\ res = inl (ApiError (str "INVALID_RESPONSE")
                         (str "Failed to parse server response: Invalid JSON")
                         (status r))).
Proof.
  intros H Hk. destruct (request_kept _ _ _ _ _ _ H Hk) as (r' & Hc & ->).
  apply classify_cases in Hc.
  destruct (status r =? 204).
  { destruct Hc as [-> _]. repeat split; intros; discriminate. }
  destruct Hc as (a & Hc).
  split; [| split].
  - intros t m post' ->. destruct a as [e | t0]; [destruct Hc; discriminate |].
    destruct (is_blank t0); [destruct Hc; discriminate |].
    destruct Hc as (pa & Hl & ->). injection Hl as ? ? ?; subst. auto.
  - intros m post' ->. destruct a as [e | t0].
    + destruct Hc as [Hl ->]. injection Hl as ? ?; subst. auto.
    + destruct (is_blank t0); [destruct Hc | destruct Hc as (? & ? & _)];
        discriminate.
  - intros v post' ->. destruct a as [e | t0].
    + destruct Hc as [Hl ->]. injection Hl as ? ?; subst. auto.
    + destruct (is_blank t0); [destruct Hc | destruct Hc as (? & ? & _)];
        discriminate.
Qed.


(** X13. The coordinator is asked exactly when the first response is a
    401.  After a first response with another status [request] calls
    [fetch] once and [handle401Error] never; after a first 401 the next
    thing it does is to call [handle401Error], once; and it never calls it
    in any other situation. *)
Theorem refresh_only_after_401 endpoint options log res :
  reaches (request P baseURL endpoint options) log res ->
  (forall t c r post,
      log = EGetAuthToken t :: EFetch c (inr r) :: post -> status r <> 401 ->
      refreshes log = 0%nat /\ fetches log = 1%nat)
  /\ (forall t c r post,
         log = EGetAuthToken t :: EFetch c (inr r) :: post -> status r = 401 ->
         refreshes log = 1%nat
         /\ exists a post', post = EHandle401 a :: post')
  /\ (refreshes log = 1%nat ->
      exists t c r a post,
        log = EGetAuthToken t :: EFetch c (inr r) :: EHandle401 a :: post
        /\ status r = 401).
Proof.
  intros H.
  apply request_cases in H as [(x0 & Hx0 & Hy0) | H];
    [store_thrown |].
  destruct H
    as [(t' & _ & -> & _) | [(t' & h & e' & _ & -> & _)
                            | (pre & post' & last & r' & Hw & -> & Hr & _)]].
  - repeat split; intros; discriminate.
  - repeat split; intros; discriminate.
  - destruct (ending_quiet _ _ _ Hr) as (Hf & Hq & _).
    rewrite refreshes_app, fetches_app, Hf, Hq.
    split; [| split].
    + intros t c r post Hl Hst.
      destruct Hw; simpl in Hl; injection Hl as; subst;
        try contradiction. split; reflexivity.
    + intros t c r post Hl Hst.
      destruct Hw; simpl in Hl; injection Hl as; subst;
        try contradiction; (split; [reflexivity | eauto]).
    + intros Hn. destruct Hw; try (cbn in Hn; discriminate);
        simpl; eauto 10.
Qed.

(** X14. The retry repeats the request.  When [request] calls [fetch] a
    second time, the coordinator had returned a non-empty token, and the
    second call has the URL, the method and the body of the first (base URL
    followed by the endpoint, and what [options] says); only the headers are
    merged anew, for the new token. *)
Theorem retry_repeats_request endpoint options t c1 a1 a401 c2 a2 post res :
  reaches (request P baseURL endpoint options)
    (EGetAuthToken t :: EFetch c1 a1 :: EHandle401 a401 :: EFetch c2 a2 :: post)
    res ->
  exists newToken,
    a401 = inr newToken
    /\ newToken <> ""
    /\ f_url c1 = baseURL +:+ endpoint
    /\ f_url c2 = f_url c1
    /\ f_method c1 = method options /\ f_method c2 = f_method c1
    /\ f_body c1 = body options /\ f_body c2 = f_body c1
    /\ merged_headers options (token_or_empty t) = Some (f_headers c1)
    /\ merged_headers options newToken = Some (f_headers c2).
Proof.
  intros H.
  apply request_cases in H as [(x0 & Hx0 & Hy0) | H];
    [store_thrown |].
  destruct H
    as [(t' & _ & Hl & _) | [(t' & h & e' & _ & Hl & _)
                            | (pre & post' & last & r' & Hw & Hl & Hr & _)]];
    try discriminate.
  pose proof (ending_log _ _ _ Hr) as Hlog.
  assert (Hne : forall s, truthy_string s = true -> s <> "").
  { intros s Hs. unfold truthy_string in Hs.
    apply negb_true_iff, String.eqb_neq in Hs. exact Hs. }
  destruct Hw; simpl in Hl; injection Hl as; subst;
    try (destruct Hlog as [Hlog | [(? & ? & Hlog) | (? & ? & ? & Hlog)]];
         discriminate);
    eexists; repeat split; eauto.
Qed.

(** X15. The verbs.  Every call of [fetch] made for [get], [post], [put],
    [patch] or [delete] goes to the base URL followed by the endpoint and
    carries the method of the verb, whatever method [options] names; [get]
    and [delete] pass the body of [options] on unchanged. *)
Theorem verbs_set_method endpoint (b : value) options log res c :
  In c (fetch_calls log) ->
  (reaches (get P baseURL endpoint options) log res ->
   f_url c = baseURL +:+ endpoint /\ f_method c = Some "GET"
   /\ f_body c = body options)
  /\ (reaches (delete P baseURL endpoint options) log res ->
      f_url c = baseURL +:+ endpoint /\ f_method c = Some "DELETE"
      /\ f_body c = body options)
  /\ (reaches (post P baseURL endpoint b options) log res ->
      f_url c = baseURL +:+ endpoint /\ f_method c = Some "POST")
  /\ (reaches (put P baseURL endpoint b options) log res ->
      f_url c = baseURL +:+ endpoint /\ f_method c = Some "PUT")
  /\ (reaches (patch P baseURL endpoint b options) log res ->
      f_url c = baseURL +:+ endpoint /\ f_method c = Some "PATCH").
Proof.
  intros Hin.
  split; [| split; [| split; [| split]]]; intros H;
    destruct (request_fetch_calls _ _ _ _ _ H Hin) as (tok & h & _ & ->);
    repeat split.
Qed.

(** ** Blank bodies *)

Lemma strip_leading_empty ws s :
  strip_leading ws s = "" <-> string_forall ws s = true.
Proof.
  induction s as [| c s IH]; simpl; [tauto |].
  destruct (ws c); simpl; [exact IH |]. split; discriminate.
Qed.

Lemma strip_trailing_empty ws s :
  strip_trailing ws s = "" <-> string_forall ws s = true.
Proof.
  induction s as [| c s IH]; simpl; [tauto |].
  destruct (ws c); simpl; [| split; discriminate].
  destruct (String.eqb_spec (strip_trailing ws s) "") as [He | Hne].
  - split; [intros _; apply IH, He | reflexivity].
  - split; [discriminate |]. intros Hs. apply IH in Hs. contradiction.
Qed.

Lemma strip_leading_forall ws s :
  string_forall ws (strip_leading ws s) = true -> string_forall ws s = true.
Proof.
  induction s as [| c s IH]; simpl; [tauto |].
  destruct (ws c) eqn:Hc; simpl; [exact IH |]. rewrite Hc. discriminate.
Qed.

(** X16. What counts as an empty body.  The test
    [!text || text.trim() === ''] holds exactly for the texts made of white
    space only, the empty text among them: any other text is handed to
    [JSON.parse]. *)
Theorem blank_iff_whitespace (t : string) :
  is_blank t = true <-> string_forall js_whitespace t = true.
Proof.
  unfold is_blank, truthy_string, trim, strip. rewrite negb_involutive.
  rewrite orb_true_iff. split.
  - intros [Ht | Ht].
    + apply String.eqb_eq in Ht. subst t. reflexivity.
    + apply String.eqb_eq, strip_trailing_empty in Ht.
      apply strip_leading_forall, Ht.
  - intros Ht. right. apply String.eqb_eq, strip_trailing_empty.
    apply strip_leading_empty in Ht. rewrite Ht. reflexivity.
Qed.

(** ** The Authorization header when the caller gives none *)

Lemma obj_set_keys {A : Type} (o : list (string * A)) k' v k :
  In k (map fst (obj_set o k' v)) -> In k (map fst o) \/ k = k'.
Proof.
  induction o as [| [k0 v0] o IH]; simpl.
  - intros [<- | []]. auto.
  - destruct (String.eqb k0 k'); simpl.
    + intros [<- | Hin]; auto.
    + intros [<- | Hin]; [auto |]. apply IH in Hin. destruct Hin; auto.
Qed.

Lemma obj_spread_keys {A : Type} (src o : list (string * A)) k :
  In k (map fst (obj_spread o src)) -> In k (map fst o) \/ In k (map fst src).
Proof.
  unfold obj_spread. revert o. induction src as [| [k' v'] src IH]; intros o; simpl.
  - auto.
  - intros Hin. apply IH in Hin as [Hin | Hin]; [| auto].
    apply obj_set_keys in Hin. simpl in Hin. destruct Hin; auto.
Qed.

Lemma no_authorization_in_base options base :
  (forall k v, In (k, v) (caller_headers options) -> lower k <> "authorization") ->
  Headers_new (header_record options) = Some base ->
  Headers_get base "Authorization" = None.
Proof.
  intros Hnone Hnew. apply Headers_new_map in Hnew. subst base.
  unfold Headers_get. rewrite filter_map_none; [reflexivity |].
  intros [k v] Hin. unfold name_is. simpl. apply String.eqb_neq.
  assert (Hk : In k (map fst (header_record options))).
  { apply (in_map fst _ _ Hin). }
  unfold header_record in Hk. apply obj_spread_keys in Hk as [[<- | []] | Hk].
  - discriminate.
  - apply in_map_iff in Hk as ([k' v'] & Hk & Hkv). simpl in Hk. subst k'.
    apply (Hnone k v' Hkv).
Qed.

(** X17. Authorization when the caller supplies none, under any spelling.
    The first call of [fetch] then carries [Authorization: Bearer <token>]
    for the token read from the store when there is one, and no
    Authorization header at all when the store holds no token or an empty
    one. *)
Theorem authorization_follows_token endpoint options t c a post res :
  reaches (request P baseURL endpoint options)
    (EGetAuthToken t :: EFetch c a :: post) res ->
  (forall k v, In (k, v) (caller_headers options) -> lower k <> "authorization") ->
  (forall tok, t = Some tok -> tok <> "" ->
               Headers_get (f_headers c) "Authorization"
               = Some (normalize ("Bearer " +:+ tok)))
  /\ (t = None \/ t = Some "" ->
      Headers_get (f_headers c) "Authorization" = None).
Proof.
  intros H Hnone. apply first_fetch in H. unfold merged_headers in H.
  destruct (Headers_new (header_record options)) as [base |] eqn:Hnew;
    [| discriminate].
  pose proof (no_authorization_in_base _ _ Hnone Hnew) as Hget.
  rewrite Hget in H. simpl in H. rewrite andb_true_r in H.
  split.
  - intros tok -> Htok. simpl in H.
    assert (Ht : truthy_string tok = true).
    { unfold truthy_string. apply negb_true_iff, String.eqb_neq, Htok. }
    rewrite Ht in H. apply (Headers_set_get _ _ _ _ H).
  - intros [-> | ->]; simpl in H; injection H as <-; exact Hget.
Qed.

Lemma reads_app l1 l2 : reads (l1 ++ l2) = (reads l1 + reads l2)%nat.
Proof. unfold reads. rewrite List.filter_app, length_app. reflexivity. Qed.

Lemma parses_app l1 l2 : parses (l1 ++ l2) = (parses l1 + parses l2)%nat.
Proof. unfold parses. rewrite List.filter_app, length_app. reflexivity. Qed.

(** X19. One body, read once.  In every run of [request] the text of at
    most one response is read, once, and [JSON.parse] is called at most
    once, on the text that was read: a response body, which can be consumed
    only once, is never read twice. *)
Theorem body_read_at_most_once endpoint options log res :
  reaches (request P baseURL endpoint options) log res ->
  (reads log <= 1)%nat
  /\ (parses log <= 1)%nat
  /\ (forall pre t pa post,
         log = pre ++ EParse t pa :: post ->
         post = [] /\ exists r pre', pre = pre' ++ [EText r (inr t)]).
Proof.
  intros H.
  apply request_cases in H as [(x0 & -> & _) | H].
  { split; [cbn; lia |]. split; [cbn; lia |].
    intros [| ? [| ? ?]] t pa post Hl; discriminate. }
  destruct H
    as [(t' & _ & -> & _) | [(t' & h & e' & _ & -> & _)
                            | (pre & post' & last & r' & Hw & -> & Hr & _)]].
  - split; [cbn; lia |]. split; [cbn; lia |].
    intros [| ? [| ? ?]] t pa post Hl; discriminate.
  - split; [cbn; lia |]. split; [cbn; lia |].
    intros [| ? [| ? [| ? ?]]] t pa post Hl; discriminate.
  - assert (Hpre : reads pre = 0%nat /\ parses pre = 0%nat
                   /\ forall e, In e pre -> is_parse e = false).
    { destruct Hw; repeat split; intros e0 Hin; simpl in Hin;
        repeat (destruct Hin as [<- | Hin]; [reflexivity |]); destruct Hin. }
    destruct Hpre as (Hreads & Hparses & Hnone).
    rewrite reads_app, parses_app, Hreads, Hparses.
    apply ending_log in Hr as [-> | [(r & a & ->) | (r & t0 & pa0 & ->)]].
    + split; [cbn; lia |]. split; [cbn; lia |].
      intros pre0 t pa post Hl. exfalso. rewrite app_nil_r in Hl.
      assert (Hin : In (EParse t pa) pre).
      { rewrite Hl. apply in_elt. }
      specialize (Hnone _ Hin). discriminate.
    + split; [cbn; lia |]. split; [cbn; lia |].
      intros pre0 t pa post Hl. exfalso.
      assert (Hin : In (EParse t pa) (pre ++ [EText r a])).
      { rewrite Hl. apply in_elt. }
      apply in_app_iff in Hin as [Hin | [Hin | []]]; [| discriminate].
      specialize (Hnone _ Hin). discriminate.
    + split; [cbn; lia |]. split; [cbn; lia |].
      intros pre0 t pa post Hl.
      change (pre ++ [EText r (inr t0); EParse t0 pa0])
        with (pre ++ [EText r (inr t0)] ++ [EParse t0 pa0]) in Hl.
      rewrite app_assoc in Hl.
      destruct post as [| e0 post0 _] using rev_ind.
      * apply app_inj_tail in Hl as [<- Heq]. injection Heq as <- <-.
        split; [reflexivity |]. exists r, pre. reflexivity.
      * exfalso. rewrite app_comm_cons, app_assoc in Hl.
        apply app_inj_tail in Hl as [Hl _].
        assert (Hin : In (EParse t pa) (pre ++ [EText r (inr t0)])).
        { rewrite Hl. apply in_elt. }
        apply in_app_iff in Hin as [Hin | [Hin | []]]; [| discriminate].
        specialize (Hnone _ Hin). discriminate.
Qed.

End ClientProperties.

(** ** Runs in scripted worlds *)

Lemma at_most_one_retry_witness :
  (refreshes
     (log_of (run scripted (request demo_platform "/api/v1" "/items" no_options)
                world_twice_401)) <= 1)%nat
  /\ (fetches
        (log_of (run scripted (request demo_platform "/api/v1" "/items" no_options)
                   world_twice_401)) <= 2)%nat
  /\ exists e,
       result_of (run scripted (request demo_platform "/api/v1" "/items" no_options)
                    world_twice_401) = inl e
       /\ instanceof_ApiError e = true
       /\ error_status e = Some 401.
Proof.
  destruct (at_most_one_retry demo_platform "/api/v1" "/items" no_options _ _
              (run_reaches scripted _ world_twice_401)) as (Hr & Hf & Hretry).
  split; [exact Hr |]. split; [exact Hf |].
  edestruct Hretry as (_ & _ & e & He & Hi & Hs); [reflexivity | reflexivity |].
  exists e. split; [exact He |]. split; [exact Hi |]. apply Hs.
  - intros t' [Hin | []]. discriminate.
  - intros x [Hin | []]. discriminate.
Defined.

Lemma second_401_null_body_witness :
  result_of (run scripted (request demo_platform "/api/v1" "/items" no_options)
               world_retry_null)
  = inl (ApiError (str "NETWORK_ERROR")
           (str "Cannot read properties of null (reading 'error')") 0)
  /\ refreshes
       (log_of (run scripted (request demo_platform "/api/v1" "/items" no_options)
                  world_retry_null)) = 1%nat
  /\ fetches
       (log_of (run scripted (request demo_platform "/api/v1" "/items" no_options)
                  world_retry_null)) = 2%nat.
Proof.
  split; [| split; reflexivity].
  apply (second_401_null_body demo_platform "/api/v1" "/items" no_options
           (Some "stale") (items_call None "stale") (inr (response 0 401))
           (inr "fresh") (items_call None "fresh") (response 1 401) "null"
           (result_of (run scripted
                         (request demo_platform "/api/v1" "/items" no_options)
                         world_retry_null))).
  - exact (run_reaches scripted
             (request demo_platform "/api/v1" "/items" no_options)
             world_retry_null).
  - reflexivity.
Defined.


Lemma falsy_body_is_dropped_witness :
  (exists c a rest,
      log_of (run scripted
                (put demo_platform "/api/v1" "/items/1" (JV (JStr "draft"))
                   no_options) world_id)
      = EGetAuthToken (Some "token") :: EFetch c a :: rest
      /\ f_url c = "/api/v1/items/1"
      /\ f_method c = Some "PUT"
      /\ f_body c = Some (quoted "draft"))
  /\ (f_method
        {| f_url := "/api/v1/items/1"; f_method := Some "PATCH";
           f_headers := [("content-type", "application/json");
                         ("authorization", "Bearer token")];
           f_body := Some "true" |} = Some "PATCH"
      /\ f_body
           {| f_url := "/api/v1/items/1"; f_method := Some "PATCH";
              f_headers := [("content-type", "application/json");
                            ("authorization", "Bearer token")];
              f_body := Some "true" |} = Some "true")
  /\ f_body {| f_url := "/api/v1/items"; f_method := Some "POST";
               f_headers := [("content-type", "application/json")];
               f_body := None |} = None.
Proof.
  split; [| split].
  - destruct (falsy_body_is_dropped demo_platform "/api/v1" "/items/1"
                (JV (JStr "draft")) no_options "PUT" _ _
                (or_intror
                   (or_introl
                      (conj eq_refl (run_reaches scripted _ world_id)))))
      as [Hsent Hcalls].
    destruct Hsent as [(e & He) | (t & rest & Hl & Hsend)];
      [vm_compute in He; discriminate He |].
    vm_compute in Hl. injection Hl as <- <-.
    destruct (Hsend [("content-type", "application/json");
                     ("authorization", "Bearer token")] eq_refl)
      as (c & a & rest' & Hrest & Hurl & _).
    injection Hrest as <- <- <-.
    eexists _, _, _. split; [reflexivity |].
    split; [reflexivity |]. split; reflexivity.
  - destruct (falsy_body_is_dropped demo_platform "/api/v1" "/items/1"
                (JV (JBool true)) no_options "PATCH" _ _
                (or_intror
                   (or_intror
                      (conj eq_refl (run_reaches scripted _ world_id)))))
      as [_ Hcalls].
    destruct (Hcalls {| f_url := "/api/v1/items/1"; f_method := Some "PATCH";
                        f_headers := [("content-type", "application/json");
                                      ("authorization", "Bearer token")];
                        f_body := Some "true" |} (or_introl eq_refl))
      as (Hm & _ & Hbody & _).
    split; [exact Hm | apply (Hbody (JBool true)); reflexivity].
  - destruct (falsy_body_is_dropped demo_platform "/api/v1" "/items"
                (JV (JNum 0))
                {| method := None; headers := None; body := Some "x" |}
                "POST" _ _
                (or_introl (conj eq_refl (run_reaches scripted _ world_boom))))
      as [_ Hcalls].
    destruct (Hcalls {| f_url := "/api/v1/items"; f_method := Some "POST";
                        f_headers := [("content-type", "application/json")];
                        f_body := None |} (or_introl eq_refl))
      as (_ & Hfalsy & _).
    apply Hfalsy. reflexivity.
Defined.

Lemma header_merge_witness :
  Headers_get (f_headers (items_call None "stale")) "Authorization"
  = Some (normalize ("Bearer " +:+ "stale"))
  /\ Headers_get (f_headers (items_call None "fresh")) "Authorization"
     = Some (normalize ("Bearer " +:+ "fresh"))
  /\ Headers_get
       (f_headers
          {| f_url := "/api/v1/items"; f_method := None;
             f_headers := [("content-type", "text/plain");
                           ("authorization", "Basic abc")];
             f_body := None |}) "Authorization"
     = Some "Basic abc".
Proof.
  destruct (header_merge demo_platform "/api/v1" "/items" no_options _ _
              (run_reaches scripted _ world_items)) as [_ Hitems].
  destruct (header_merge demo_platform "/api/v1" "/items"
              (with_headers [("authorization", "Basic abc");
                             ("Content-Type", "text/plain")]) _ _
              (run_reaches scripted _ world_id)) as [_ Hbasic].
  split; [| split].
  - destruct (Hitems "stale" (items_call None "stale"))
      as (base & _ & Hbase & _ & _ & Hinject & _).
    { left. eexists _, _, _. split; reflexivity. }
    apply Hinject; [discriminate |].
    left. injection Hbase as <-. reflexivity.
  - destruct (Hitems "fresh" (items_call None "fresh"))
      as (base & _ & Hbase & _ & _ & Hinject & _).
    { right. eexists _, _, _, _, _. reflexivity. }
    apply Hinject; [discriminate |].
    left. injection Hbase as <-. reflexivity.
  - destruct (Hbasic "token"
                {| f_url := "/api/v1/items"; f_method := None;
                   f_headers := [("content-type", "text/plain");
                                 ("authorization", "Basic abc")];
                   f_body := None |})
      as (base & _ & Hbase & Hkeep & _).
    { left. eexists _, _, _. split; reflexivity. }
    assert (Hget : Headers_get base "Authorization" = Some "Basic abc").
    { injection Hbase as <-. reflexivity. }
    rewrite (Hkeep "Basic abc" Hget) by discriminate. exact Hget.
Defined.

(** C8, as the claim states it, fails.  The caller supplies an
    Authorization header whose value is empty: it is overwritten with the
    Bearer token.  The caller supplies its content type under the name
    content-type: the default is not overridden, both values are sent.  The
    caller supplies its headers as a [Headers] instance holding
    [Authorization: Basic abc] and a content type: spreading it gives no
    property, so the Authorization sent is the Bearer token and the
    Content-Type the default.  The caller supplies them as an array of
    pairs: the spread gives the property [0], and Authorization is the
    Bearer token again. *)
Lemma caller_authorization_overwritten :
  In ("Authorization", "") (caller_headers (with_headers [("Authorization", "")]))
  /\ sent_header (with_headers [("Authorization", "")]) "tok" "Authorization"
     = Some "Bearer tok"
  /\ sent_header (with_headers [("content-type", "text/plain")]) "" "Content-Type"
     = Some "application/json, text/plain"
  /\ Headers_get [("authorization", "Basic abc"); ("content-type", "text/plain")]
       "Authorization" = Some "Basic abc"
  /\ sent_header
       {| method := None;
          headers := Some (HInstance [("authorization", "Basic abc");
                                      ("content-type", "text/plain")]);
          body := None |} "tok" "Authorization"
     = Some "Bearer tok"
  /\ sent_header
       {| method := None;
          headers := Some (HInstance [("authorization", "Basic abc");
                                      ("content-type", "text/plain")]);
          body := None |} "tok" "Content-Type"
     = Some "application/json"
  /\ sent_header
       {| method := None;
          headers := Some (HPairs [["Authorization"; "Basic abc"]]);
          body := None |} "tok" "Authorization"
     = Some "Bearer tok"
  /\ sent_header
       {| method := None;
          headers := Some (HPairs [["Authorization"; "Basic abc"]]);
          body := None |} "tok" "0"
     = Some "Authorization,Basic abc".
Proof. split; [left; reflexivity | repeat split; reflexivity]. Qed.

(** C6. The refresh fails on a 401 whose body is the JSON text [null].
    The request is not retried, the body parses to [null], reading
    [data.error] throws a [TypeError], and the outer [catch] turns it into
    NETWORK_ERROR with status 0: the caller does not receive an error with
    the status 401. *)
Theorem refresh_failure_null_body :
  result_of (run scripted (request demo_platform "/api/v1" "/items" no_options)
               world_null_body)
  = inl (ApiError (str "NETWORK_ERROR")
           (str "Cannot read properties of null (reading 'error')") 0)
  /\ log_of (run scripted (request demo_platform "/api/v1" "/items" no_options)
               world_null_body)
     = [EGetAuthToken (Some "stale");
        EFetch {| f_url := "/api/v1/items"; f_method := None;
                  f_headers := [("content-type", "application/json");
                                ("authorization", "Bearer stale")];
                  f_body := None |} (inr (response 0 401));
        EHandle401 (inl (JsError "refresh rejected"));
        EText (response 0 401) (inr "null");
        EParse "null" (inr JNull)].
Proof. split; reflexivity. Qed.

(** With an empty body the same failure gives the synthesized error. *)
Example refresh_failure_empty_body :
  result_of (run scripted (request demo_platform "/api/v1" "/items" no_options)
               world_empty_401)
  = inl (ApiError (str "UNAUTHORIZED") (str "Unauthorized") 401).
Proof. reflexivity. Qed.

(** An expired token: 401, refresh, retry with the new token, 200. *)
Example scenario_items :
  result_of (run scripted (get demo_platform "/api/v1" "/items" no_options)
               world_items)
  = inr (Payload (JObj [("data", JArr [])]))
  /\ map f_headers
       (fetch_calls
          (log_of (run scripted (get demo_platform "/api/v1" "/items" no_options)
                     world_items)))
     = [[("content-type", "application/json"); ("authorization", "Bearer stale")];
        [("content-type", "application/json"); ("authorization", "Bearer fresh")]].
Proof. split; reflexivity. Qed.

Example scenario_server_error :
  result_of (run scripted (get demo_platform "/api/v1" "/items" no_options)
               world_boom)
  = inl (ApiError (str "SERVER_ERROR") (str "boom") 500).
Proof. reflexivity. Qed.

(** ** Further runs in scripted worlds *)

Lemma request_fails_with_api_error_witness :
  instanceof_ApiError (ApiError (str "SERVER_ERROR") (str "boom") 500) = true
  /\ result_of (run scripted
                  (request demo_platform "/api/v1" "/items" no_options)
                  world_store_throws)
     = inl (JsError "store is gone").
Proof.
  split.
  - destruct (request_fails_with_api_error demo_platform "/api/v1" "/items"
                no_options _ _
                (run_reaches scripted
                   (request demo_platform "/api/v1" "/items" no_options)
                   world_boom)) as (_ & _ & Hapi).
    apply (Hapi None
             [EFetch {| f_url := "/api/v1/items"; f_method := None;
                        f_headers := [("content-type", "application/json")];
                        f_body := None |} (inr (response 0 500));
              EText (response 0 500) (inr body_boom);
              EParse body_boom
                (inr (JObj [("error", JObj [("code", JStr "SERVER_ERROR");
                                            ("message", JStr "boom")])]))]);
      reflexivity.
  - destruct (request_fails_with_api_error demo_platform "/api/v1" "/items"
                no_options _ _
                (run_reaches scripted
                   (request demo_platform "/api/v1" "/items" no_options)
                   world_store_throws)) as (Hstore & _ & _).
    apply (Hstore (JsError "store is gone") []). reflexivity.
Defined.

Lemma transport_failure_is_network_error_witness :
  result_of (run scripted (request demo_platform "/api/v1" "/items" no_options)
               world_offline)
  = inl (ApiError (str "NETWORK_ERROR") (str "Failed to fetch") 0).
Proof.
  destruct (transport_failure_is_network_error demo_platform "/api/v1" "/items"
              no_options (Some "token") (items_call None "token")
              (JsError "Failed to fetch") []
              (result_of (run scripted
                            (request demo_platform "/api/v1" "/items" no_options)
                            world_offline)))
    as (_ & Hmsg & _).
  - exact (run_reaches scripted
             (request demo_platform "/api/v1" "/items" no_options) world_offline).
  - apply (Hmsg "Failed to fetch"). reflexivity.
Defined.


Lemma unparsable_body_is_invalid_response_witness :
  result_of (run scripted (request demo_platform "/api/v1" "/items" no_options)
               world_garbage)
  = inl (ApiError (str "INVALID_RESPONSE")
           (str "Failed to parse server response: Unexpected token") 200).
Proof.
  destruct (unparsable_body_is_invalid_response demo_platform "/api/v1" "/items"
              no_options _ _ (response 0 200)
              [EText (response 0 200) (inr "<html>");
               EParse "<html>" (inl "Unexpected token")]
              (run_reaches scripted _ world_garbage)) as (Hparse & _).
  - left. eexists _, _. split; [reflexivity | discriminate].
  - apply (Hparse "<html>" "Unexpected token" []). reflexivity.
Defined.


Lemma refresh_only_after_401_witness :
  refreshes
    (log_of (run scripted (request demo_platform "/api/v1" "/items" no_options)
               world_id)) = 0%nat
  /\ refreshes
       (log_of (run scripted (request demo_platform "/api/v1" "/items" no_options)
                  world_items)) = 1%nat.
Proof.
  split.
  - destruct (refresh_only_after_401 demo_platform "/api/v1" "/items" no_options
                _ _ (run_reaches scripted _ world_id)) as (Hother & _).
    edestruct Hother as [Hr _]; [reflexivity | discriminate | exact Hr].
  - destruct (refresh_only_after_401 demo_platform "/api/v1" "/items" no_options
                _ _ (run_reaches scripted _ world_items)) as (_ & H401 & _).
    edestruct H401 as [Hr _]; [reflexivity | reflexivity | exact Hr].
Defined.

Lemma retry_repeats_request_witness :
  exists newToken,
    @inr exn string "fresh" = inr newToken
    /\ newToken <> ""
    /\ merged_headers no_options newToken
       = Some [("content-type", "application/json");
               ("authorization", "Bearer fresh")].
Proof.
  destruct (retry_repeats_request demo_platform "/api/v1" "/items" no_options
              (Some "stale") (items_call None "stale") (inr (response 0 401))
              (inr "fresh") (items_call None "fresh") (inr (response 1 200))
              [EText (response 1 200) (inr body_items);
               EParse body_items (inr (JObj [("data", JArr [])]))]
              (result_of (run scripted
                            (request demo_platform "/api/v1" "/items" no_options)
                            world_items)))
    as (newToken & Ha & Hne & _ & _ & _ & _ & _ & _ & _ & Hm).
  - exact (run_reaches scripted
             (request demo_platform "/api/v1" "/items" no_options) world_items).
  - exists newToken. auto.
Defined.

Lemma verbs_set_method_witness :
  f_method
    {| f_url := "/api/v1/items"; f_method := Some "DELETE";
       f_headers := [("content-type", "application/json");
                     ("authorization", "Bearer token")];
       f_body := None |}
  = Some "DELETE".
Proof.
  destruct (verbs_set_method demo_platform "/api/v1" "/items" undefined
              {| method := Some "GET"; headers := None; body := None |}
              (log_of (run scripted
                         (delete demo_platform "/api/v1" "/items"
                            {| method := Some "GET"; headers := None;
                               body := None |})
                         world_id))
              (result_of (run scripted
                            (delete demo_platform "/api/v1" "/items"
                               {| method := Some "GET"; headers := None;
                                  body := None |})
                            world_id))
              {| f_url := "/api/v1/items"; f_method := Some "DELETE";
                 f_headers := [("content-type", "application/json");
                               ("authorization", "Bearer token")];
                 f_body := None |})
    as (_ & Hdelete & _).
  - left. reflexivity.
  - apply Hdelete.
    exact (run_reaches scripted
             (delete demo_platform "/api/v1" "/items"
                {| method := Some "GET"; headers := None; body := None |})
             world_id).
Defined.

Lemma authorization_follows_token_witness :
  Headers_get (f_headers (items_call None "token")) "Authorization"
  = Some (normalize "Bearer token").
Proof.
  destruct (authorization_follows_token demo_platform "/api/v1" "/items"
              no_options (Some "token") (items_call None "token")
              (inr (response 0 200))
              [EText (response 0 200) (inr body_id);
               EParse body_id (inr (JObj [("data", JObj [("id", JNum 1)])]))]
              (result_of (run scripted
                            (request demo_platform "/api/v1" "/items" no_options)
                            world_id)))
    as (Htok & _).
  - exact (run_reaches scripted
             (request demo_platform "/api/v1" "/items" no_options) world_id).
  - intros k v [].
  - apply (Htok "token"); [reflexivity | discriminate].
Defined.

Lemma blank_iff_whitespace_witness :
  is_blank (String "032" (String "010" "")) = true.
Proof.
  apply (proj2 (blank_iff_whitespace (String "032" (String "010" "")))).
  reflexivity.
Defined.

Lemma body_read_at_most_once_witness :
  (reads
     (log_of (run scripted (request demo_platform "/api/v1" "/items" no_options)
                world_items)) <= 1)%nat.
Proof.
  apply (body_read_at_most_once demo_platform "/api/v1" "/items" no_options _ _
           (run_reaches scripted _ world_items)).
Defined.
